(** * Calibration CI calculator: the statistics core (stats.py)

    A shallow embedding of [ci_ote], [calculate_p_value], [p_val_to_str]
    and [BH_adjusted_pval], and of the table handlers of app.py.

    Conventions.
    - The confidence levels of [np.arange] are computed in binary64, with
      the kernel's floats and numpy's rule, and then read as the rationals
      they are.  The other arithmetic is on exact rationals ([Q]); NaN and
      infinities are not represented.  Equality of two numbers is [==].
    - [scipy.stats.beta(...).ppf] is library code: it is a variable of the
      model.  The concrete quantile [ppf_uniform] is the one of Beta(1,1),
      the only shape used in the evaluated examples.
    - A Python call either returns or raises: [outcome]. *)

From Stdlib Require Import String Ascii DecimalString.
From Stdlib Require Import QArith Qround Qminmax Qabs Lqa Lia ZArith List Bool.
From Stdlib Require Import Permutation Sorted.
From Stdlib Require Import Uint63 PrimFloat FloatOps SpecFloat.
Set Warnings "-inexact-float".
Import ListNotations.
Close Scope string_scope.
Open Scope list_scope.
Open Scope Q_scope.

(** ** Python values and outcomes *)

Inductive exn : Type :=
| ValueError (msg : string)
| NameError (name : string)
| PyTypeError (msg : string).

Inductive outcome (A : Type) : Type :=
| Returned (a : A)
| Raised (e : exn).

Arguments Returned {A} a.
Arguments Raised {A} e.

Definition bind {A B : Type} (m : outcome A) (k : A -> outcome B) : outcome B :=
  match m with
  | Returned a => k a
  | Raised e => Raised e
  end.

Notation "x <- m ;; k" := (bind m (fun x => k))
  (at level 61, m at next level, right associativity).

(** [x < y] on floats. *)
Definition Qltb (x y : Q) : bool := negb (Qle_bool y x).

(** ** scipy.stats.beta: a frozen distribution and its quantile function *)

Record rv_frozen : Type := beta { a : Q; b : Q }.

(** The quantile function of Beta(1,1), the uniform law on [0,1]. *)
Definition ppf_uniform (dist : rv_frozen) (q : Q) : Q := q.

(** ** numpy helpers *)

(** The rational a binary64 number is (0 for NaN and the infinities,
    which the grid does not meet). *)
Definition Q_of_float (x : float) : Q :=
  match Prim2SF x with
  | S754_finite s m e =>
      let v := inject_Z (Zpos m) * Qpower 2 e in
      Qred (if s then - v else v)
  | _ => 0
  end.

Definition float_of_nat (i : nat) : float :=
  PrimFloat.of_uint63 (Uint63.of_Z (Z.of_nat i)).

(** [np.arange(start, stop, step)] on floats: ceil((stop - start)/step)
    points; the first is [start], the second [start + step], and point i
    is [start + i*delta] with [delta = (start + step) - start], every
    operation rounded to binary64. *)
Definition arange (start stop step : float) : list float :=
  let length := Z.to_nat (Qceiling (Q_of_float ((stop - start) / step)%float)) in
  let next := (start + step)%float in
  let delta := (next - start)%float in
  map (fun i =>
         match i with
         | O => start
         | S O => next
         | _ => (start + float_of_nat i * delta)%float
         end)
      (seq 0 length).

(** [Series.cummin()]. *)
Fixpoint cummin_from (m : Q) (l : list Q) : list Q :=
  match l with
  | [] => []
  | x :: t => let m' := Qmin m x in m' :: cummin_from m' t
  end.

Definition cummin (l : list Q) : list Q :=
  match l with
  | [] => []
  | x :: t => x :: cummin_from x t
  end.

(** A stable sort by a boolean order, for [sort_values] and [sort_index]. *)
Fixpoint insert_by {A : Type} (leb : A -> A -> bool) (x : A) (l : list A) : list A :=
  match l with
  | [] => [x]
  | y :: t => if leb x y then x :: y :: t else y :: insert_by leb x t
  end.

Fixpoint sort_by {A : Type} (leb : A -> A -> bool) (l : list A) : list A :=
  match l with
  | [] => []
  | x :: t => insert_by leb x (sort_by leb t)
  end.

(** [Series.rank()] with pandas' default [method='average']: a value
    preceded by [less] smaller ones and tied in a group of [equal] gets the
    mean of the ranks less+1 .. less+equal. *)
Definition rank_average (col : list Q) (x : Q) : Q :=
  let less := List.length (filter (fun y => Qltb y x) col) in
  let equal := List.length (filter (fun y => Qeq_bool y x) col) in
  inject_Z (Z.of_nat less) + (inject_Z (Z.of_nat equal) + 1) / 2.

(** ** The interval and the significance search *)

Definition valid_input (n : Z) (o e : Q) : Prop :=
  (0 < n)%Z /\ (0 <= o /\ o <= inject_Z n) /\ (0 < e /\ e <= inject_Z n).

Definition valid_level (cl : Q) : Prop := 0 < cl /\ cl < 1.

(** The test of line 86: 1 lies strictly inside the interval. *)
Definition contains_one (ci : Q * Q) : bool :=
  Qltb (fst ci) 1 && Qltb 1 (snd ci).

Definition excludes_one (ci : Q * Q) : bool := negb (contains_one ci).

(** [for cl in cls: if stop(cl): break]: the binding of [cl] after the
    loop, given its binding before ([None]: unbound). *)
Fixpoint for_break (stop : Q -> bool) (cls : list Q) (cl : option Q) : option Q :=
  match cls with
  | [] => cl
  | c :: rest => if stop c then Some c else for_break stop rest (Some c)
  end.

Definition conf_levels : list Q :=
  map Q_of_float
      (arange 0.01 0.99 0.01 ++ arange 0.99 0.999 0.001 ++ arange 0.999 1 0.0001).

Section Stats.

Variable ppf : rv_frozen -> Q -> Q.

Definition ci_ote (n : Z) (o e cl : Q) : Q * Q :=
  let dist := beta (1 / 2 + o) (1 / 2 + inject_Z n - o) in
  let ci_default_prob := (ppf dist ((1 - cl) / 2), ppf dist ((1 + cl) / 2)) in
  let ci_default_prob :=
    if Qeq_bool o 0 then (0, snd ci_default_prob) else ci_default_prob in
  let ci_default_prob :=
    if Qeq_bool (inject_Z n) o then (fst ci_default_prob, 1) else ci_default_prob in
  (fst ci_default_prob * inject_Z n / e, snd ci_default_prob * inject_Z n / e).

(** The p-value is [1 - cl]: exact in binary64 for a level from 0.5 on,
    and below 0.5 the float is this rational rounded. *)
Definition calculate_p_value (n : Z) (o e : Q) : outcome Q :=
  match for_break (fun cl => contains_one (ci_ote n o e cl)) conf_levels None with
  | Some cl => Returned (1 - cl)
  | None => Raised (NameError "cl")
  end.

End Stats.

(** ** Benjamini-Hochberg adjustment *)

(** What [BH_adjusted_pval] can be handed.  An item is a number, or a
    string [float()] accepts (the string '0.5'), or a string it rejects;
    [repr] is Python's [repr] of the object.  The argument is an object
    that is not iterable, or a list (or a tuple, or an array), or a set,
    which is iterable but which [pd.Series] refuses. *)
Inductive pyelem : Type :=
| PyNum (x : Q)
| PyCoercible (repr : string) (x : Q)
| PyOther (repr : string).

Inductive pyobj : Type :=
| NotIterable (repr : string)
| IterableOf (repr : string) (items : list pyelem)
| PySet (repr : string) (items : list pyelem).

Definition repr_of (v : pyobj) : string :=
  match v with
  | NotIterable r => r
  | IterableOf r _ => r
  | PySet r _ => r
  end.

Definition is_numeric (x : pyelem) : Prop :=
  match x with
  | PyNum _ => True
  | _ => False
  end.

Definition conversion_msg : string := "could not convert string to float: ".

Definition unordered_msg : string := "'set' type is unordered".

(** [float(x)] as [astype] applies it: a string that spells no number
    raises ValueError. *)
Definition to_float (x : pyelem) : outcome Q :=
  match x with
  | PyNum q => Returned q
  | PyCoercible _ q => Returned q
  | PyOther r => Raised (ValueError (conversion_msg ++ r)%string)
  end.

(** [Series.astype(float)]. *)
Fixpoint astype_float (items : list pyelem) : outcome (list Q) :=
  match items with
  | [] => Returned []
  | x :: t =>
      q <- to_float x ;;
      qs <- astype_float t ;;
      Returned (q :: qs)
  end.

(** One row of [p_val_df]: its index label and the two columns. *)
Record row : Type := { index : nat; p_val : Q; rank : Q }.

Definition to_frame (ps : list Q) : list row :=
  map (fun ip => {| index := fst ip; p_val := snd ip; rank := rank_average ps (snd ip) |})
      (combine (seq 0 (List.length ps)) ps).

Definition rank_desc (r1 r2 : row) : bool := Qle_bool (rank r2) (rank r1).

Definition index_asc (x y : row * Q) : bool := (index (fst x) <=? index (fst y))%nat.

(** Lines 132-140 on the converted column; the result is the returned
    Series as (index label, value) pairs. *)
Definition bh_frame (ps : list Q) : list (nat * Q) :=
  let p_val_df := to_frame ps in
  let p_val_df := sort_by rank_desc p_val_df in
  let len := inject_Z (Z.of_nat (List.length p_val_df)) in
  let mult_adj := cummin (map (fun r => p_val r * len / rank r) p_val_df) in
  let mult_adj := map (fun x => Qmin x 1) mult_adj in
  let p_val_df := sort_by index_asc (combine p_val_df mult_adj) in
  map (fun rx => (index (fst rx), snd rx)) p_val_df.

Definition not_iterable_msg : string :=
  "BH adjustment only takes an iterable of p-vals; received p_vals=".

Definition BH_adjusted_pval (p_vals : pyobj) : outcome (list (nat * Q)) :=
  match p_vals with
  | IterableOf _ items =>
      ps <- astype_float items ;;
      Returned (bh_frame ps)
  | PySet _ _ =>
      Raised (PyTypeError unordered_msg)
  | NotIterable r =>
      Raised (ValueError (not_iterable_msg ++ r)%string)
  end.

(** The list [[x1; ..; xk]] as Python sees it. *)
Definition py_list (repr : string) (ps : list Q) : pyobj :=
  IterableOf repr (map PyNum ps).

Definition values (s : list (nat * Q)) : list Q := map snd s.

(** ** Checkers and spec-side definitions used by the statements *)

(** The decimal points the swept levels stand for: 0.01 .. 0.98 in steps
    of 0.01, then 0.99 .. 0.999 in steps of 0.001, then 0.999 .. 1.0 in
    steps of 0.0001. *)
Definition three_tier_grid : list Q :=
  map (fun k => inject_Z (Z.of_nat k) / 100) (seq 1 98)
  ++ map (fun k => 0.99 + inject_Z (Z.of_nat k) / 1000) (seq 0 10)
  ++ map (fun k => 0.999 + inject_Z (Z.of_nat k) / 10000) (seq 0 11).

(** Two lists of the same length, at most [eps] apart entry by entry. *)
Fixpoint close_listb (eps : Q) (l1 l2 : list Q) : bool :=
  match l1, l2 with
  | [], [] => true
  | x :: t1, y :: t2 => Qle_bool (Qabs (x - y)) eps && close_listb eps t1 t2
  | _, _ => false
  end.

Fixpoint nondecreasingb (l : list Q) : bool :=
  match l with
  | [] => true
  | x :: t =>
      match t with
      | [] => true
      | y :: _ => Qle_bool x y && nondecreasingb t
      end
  end.

(** The unit in the last place of 1: 2^-52. *)
Definition ulp_one : Q := 1 # 4503599627370496.

(** The last level swept: 1 - 2^-53. *)
Definition last_level : Q := 9007199254740991 # 9007199254740992.

Fixpoint Qeq_listb (l1 l2 : list Q) : bool :=
  match l1, l2 with
  | [], [] => true
  | x :: t1, y :: t2 => Qeq_bool x y && Qeq_listb t1 t2
  | _, _ => false
  end.

(** The step-up value before the running minimum: p * m / rank(p). *)
Definition bh_raw (ps : list Q) (p : Q) : Q :=
  p * inject_Z (Z.of_nat (List.length ps)) / rank_average ps p.

(** [x] is the least of 1 and the values [bh_raw ps q] over the entries
    [q >= p] of the batch. *)
Definition is_bh_adjusted (ps : list Q) (p x : Q) : Prop :=
  x <= 1 /\
  (forall q, In q ps -> p <= q -> x <= bh_raw ps q) /\
  (x == 1 \/ exists q, In q ps /\ p <= q /\ x == bh_raw ps q).

Definition quantile_monotone (ppf : rv_frozen -> Q -> Q) : Prop :=
  forall dist q1 q2, q1 <= q2 -> ppf dist q1 <= ppf dist q2.

(** ** Display of p-values (stats.py, [p_val_to_str]) *)

(** [np.round(x, decimals)] on one number: the nearest multiple of
    10^-decimals, ties to the even one. *)
Definition round_half_even (y : Q) : Z :=
  let f := Qfloor y in
  let r := y - inject_Z f in
  if Qltb r (1 # 2) then f
  else if Qltb (1 # 2) r then (f + 1)%Z
  else if Z.even f then f else (f + 1)%Z.

Definition np_round (x : Q) (decimals : nat) : Q :=
  inject_Z (round_half_even (x * inject_Z (10 ^ Z.of_nat decimals)))
  / inject_Z (10 ^ Z.of_nat decimals).

Definition digits_of (k : Z) : string := NilZero.string_of_uint (N.to_uint (Z.to_N k)).

(** [str] of the float k/1000 for a natural k, in positional notation
    (the one Python uses below 10^16): the integer part, a point, and the
    decimals without trailing zeros, one at least. *)
Definition str_milli (k : Z) : string :=
  let ip := (k / 1000)%Z in
  let fp := (k mod 1000)%Z in
  let d1 := digits_of (fp / 100) in
  let d2 := digits_of ((fp / 10) mod 10) in
  let d3 := digits_of (fp mod 10) in
  let frac :=
    if (fp mod 100 =? 0)%Z then d1
    else if (fp mod 10 =? 0)%Z then (d1 ++ d2)%string
    else (d1 ++ d2 ++ d3)%string in
  (digits_of ip ++ "." ++ frac)%string.

(** [str(np.round(p_val, 3))], for p_val >= 0. *)
Definition str_round3 (p_val : Q) : string :=
  str_milli (round_half_even (p_val * 1000)).

Definition p_val_to_str (p_val : Q) : string :=
  let sig_level := ""%string in
  if Qltb p_val 0.001 then "0.001 (<) ***"%string
  else
    let sig_level :=
      if Qltb p_val 0.01 then " **"%string
      else if Qltb p_val 0.05 then " *"%string
      else sig_level in
    (str_round3 p_val ++ sig_level)%string.

(** The number of significance markers in a label. *)
Fixpoint count_stars (s : string) : nat :=
  match s with
  | EmptyString => 0%nat
  | String c t => ((if Ascii.eqb c "*" then 1 else 0) + count_stars t)%nat
  end.

(** ** The results table (app.py) *)

(** What a numeric input field can hold. *)
Inductive input_value : Type :=
| VInt (z : Z)
| VFloat (x : Q)
| VNaN
| VNone.

(** A comparison either gives a boolean or raises TypeError. *)
Inductive checked (A : Type) : Type :=
| Ok (a : A)
| TypeError.

Arguments Ok {A} a.
Arguments TypeError {A}.

(** [a and b], with [b] evaluated only when [a] is true. *)
Definition and_then (x : checked bool) (y : checked bool) : checked bool :=
  match x with
  | Ok true => y
  | Ok false => Ok false
  | TypeError => TypeError
  end.

Definition num (v : input_value) : Q :=
  match v with
  | VInt z => inject_Z z
  | VFloat x => x
  | _ => 0
  end.

(** An order comparison of two inputs: None cannot be ordered, and every
    comparison with NaN is false. *)
Definition py_compare (cmp : Q -> Q -> bool) (x y : input_value) : checked bool :=
  match x, y with
  | VNone, _ => TypeError
  | _, VNone => TypeError
  | VNaN, _ => Ok false
  | _, VNaN => Ok false
  | _, _ => Ok (cmp (num x) (num y))
  end.

(** [isinstance(v, (int, float))]. *)
Definition is_int_or_float (v : input_value) : bool :=
  match v with
  | VNone => false
  | _ => true
  end.

Definition is_n_valid (n : input_value) : checked bool :=
  match n with
  | VInt z => Ok (0 <? z)%Z
  | _ => Ok false
  end.

Definition is_o_valid (o n : input_value) : checked bool :=
  if is_int_or_float o
  then and_then (py_compare Qle_bool o n) (py_compare (fun x y => Qle_bool y x) o (VInt 0))
  else Ok false.

Definition is_e_valid (e n : input_value) : checked bool :=
  if is_int_or_float e
  then and_then (py_compare Qle_bool e n) (py_compare (fun x y => Qltb y x) e (VInt 0))
  else Ok false.

Record result_row : Type := {
  row_n : Z;
  row_o : Q;
  row_e : Q;
  row_OTE : Q;
  row_conf_lvl : Q;
  row_CI : string;
  row_p_val : Q
}.

(** A DataFrame: its rows in order, each with its index label. *)
Definition table : Type := list (Z * result_row).

Definition EMPTY_RESULTS_DF : table := [].

(** [df.loc[label] = r]: the rows labelled [label] are overwritten, and
    when there is none the row is appended. *)
Definition loc_set (label : Z) (r : result_row) (df : table) : table :=
  if existsb (fun lr => (fst lr =? label)%Z) df
  then map (fun lr => if (fst lr =? label)%Z then (fst lr, r) else lr) df
  else df ++ [(label, r)].

Definition shift_index (df : table) : table :=
  map (fun lr => ((fst lr + 1)%Z, snd lr)) df.

Definition label_asc (x y : Z * result_row) : bool := (fst x <=? fst y)%Z.

Definition sort_index (df : table) : table := sort_by label_asc df.

(** [df.reset_index(drop=True)]. *)
Definition reset_index (df : table) : table :=
  combine (map Z.of_nat (seq 0 (List.length df))) (map snd df).

Definition newline : string := String (ascii_of_nat 10) EmptyString.

Definition msg_n : string :=
  ("Invalid number of samples (n). Number must be a positive integer." ++ newline)%string.
Definition msg_o : string :=
  ("Invalid number of observed events (o). Number must be a non-negative number between 0 and n."
   ++ newline)%string.
Definition msg_e : string :=
  ("Invalid number of expected events (e). Number must be a positive number between 0 and n."
   ++ newline)%string.

(** How an event handler ends: the new table and the modal shown, if
    any; a TypeError out of a comparison; or an exception of the
    statistics. *)
Inductive event_outcome : Type :=
| Done (df : table) (modal : option string)
| EventTypeError
| EventRaised (e : exn).

Section App.

Variable ppf : rv_frozen -> Q -> Q.
(** [str(tuple(...))] of the rounded interval. *)
Variable str_tuple : Q * Q -> string.

Definition update_results_df (n o e : input_value) (cl : Q) (results_df_val : table)
  : event_outcome :=
  match is_n_valid n with
  | TypeError => EventTypeError
  | Ok n_ok =>
  match is_o_valid o n with
  | TypeError => EventTypeError
  | Ok o_ok =>
  match is_e_valid e n with
  | TypeError => EventTypeError
  | Ok e_ok =>
      if n_ok && o_ok && e_ok then
        let n' := match n with VInt z => z | _ => 0%Z end in
        let ote := np_round (num o / num e) 3 in
        let ci_val := ci_ote ppf n' (num o) (num e) cl in
        let ci := str_tuple (np_round (fst ci_val) 2, np_round (snd ci_val) 2) in
        match calculate_p_value ppf n' (num o) (num e) with
        | Raised ex => EventRaised ex
        | Returned p_val =>
            let r := {| row_n := n'; row_o := num o; row_e := num e; row_OTE := ote;
                        row_conf_lvl := cl; row_CI := ci; row_p_val := p_val |} in
            Done (sort_index (shift_index (loc_set (-1) r results_df_val))) None
        end
      else
        let m :=
          if negb n_ok then msg_n
          else if negb o_ok then msg_o
          else if negb e_ok then msg_e
          else ""%string in
        Done results_df_val (Some m)
  end end end.

End App.

Definition clear_results_df (results_df_val : table) : table := EMPTY_RESULTS_DF.

Definition remove_entry_from_results_df (results_df_val : table) : table :=
  if (0 <? List.length results_df_val)%nat
  then reset_index (tl results_df_val)
  else results_df_val.

(** One line of the displayed table: the stored row and the two labels. *)
Record display_row : Type := {
  shown : result_row;
  p_val_label : string;
  mult_adj_label : string
}.

(** The value a Series holds at an index label. *)
Fixpoint at_label (l : Z) (s : list (nat * Q)) : option Q :=
  match s with
  | [] => None
  | (k, x) :: t => if (Z.of_nat k =? l)%Z then Some x else at_label l t
  end.

(** [show_results_df] on a table labelled 0 .. k-1, as every table the
    handlers build is: the p-value column is adjusted, the adjusted
    column is assigned by index label, and both columns are formatted. *)
Definition show_results_df (results_df_val : table) : outcome (list display_row) :=
  adj_p_vals <- BH_adjusted_pval (py_list "" (map (fun lr => row_p_val (snd lr)) results_df_val)) ;;
  Returned
    (map (fun lr =>
            {| shown := snd lr;
               p_val_label := p_val_to_str (row_p_val (snd lr));
               mult_adj_label :=
                 match at_label (fst lr) adj_p_vals with
                 | Some x => p_val_to_str x
                 | None => "nan"%string
                 end |})
         results_df_val).

(** The tables the three handlers can build from the empty one. *)
Inductive reachable (ppf : rv_frozen -> Q -> Q) (str_tuple : Q * Q -> string)
  : table -> Prop :=
| reach_init : reachable ppf str_tuple EMPTY_RESULTS_DF
| reach_update (df df' : table) (n o e : input_value) (cl : Q) (m : option string) :
    reachable ppf str_tuple df ->
    update_results_df ppf str_tuple n o e cl df = Done df' m ->
    reachable ppf str_tuple df'
| reach_undo (df : table) :
    reachable ppf str_tuple df ->
    reachable ppf str_tuple (remove_entry_from_results_df df)
| reach_clear (df : table) :
    reachable ppf str_tuple df ->
    reachable ppf str_tuple (clear_results_df df).

Definition well_indexed (df : table) : Prop :=
  map fst df = map Z.of_nat (seq 0 (List.length df)).

Definition quantile_in_unit (ppf : rv_frozen -> Q -> Q) : Prop :=
  forall dist q, 0 <= q -> q <= 1 -> 0 <= ppf dist q /\ ppf dist q <= 1.

(** [v] is an int or a float other than NaN. *)
Definition is_number (v : input_value) : Prop :=
  match v with
  | VInt _ => True
  | VFloat _ => True
  | _ => False
  end.

(** The row [update_results_df] stores for a valid input. *)
Definition stored_row (ppf : rv_frozen -> Q -> Q) (str_tuple : Q * Q -> string)
    (z : Z) (o e cl p_val : Q) : result_row :=
  {| row_n := z; row_o := o; row_e := e;
     row_OTE := np_round (o / e) 3;
     row_conf_lvl := cl;
     row_CI := str_tuple (np_round (fst (ci_ote ppf z o e cl)) 2,
                          np_round (snd (ci_ote ppf z o e cl)) 2);
     row_p_val := p_val |}.

(** What a stored p-value is: the complement of a swept level. *)
Definition grid_p_value (p : Q) : Prop :=
  (exists cl, In cl conf_levels /\ p = 1 - cl) /\ 0 < p /\ p <= 0.99.

(** The table after the one submission n = 1, o = 0.5, e = 0.1171875 at
    level 0.95, for the quantile of Beta(1,1): the sweep stops at the
    level of index 76. *)
Definition one_row_table : table :=
  [(0%Z, stored_row ppf_uniform (fun _ => EmptyString) 1 0.5 0.1171875 0.95
           (1 - nth 76 conf_levels 0))].

(** * Theorems *)

(** ** Comparisons *)

(** Closed order facts between rational constants. *)
Ltac valid_by_computation :=
  unfold valid_input, valid_level, Qle, Qlt; simpl; lia.

Lemma Qltb_lt (x y : Q) : Qltb x y = true <-> x < y.
Proof.
  unfold Qltb. rewrite negb_true_iff. split; intro H.
  - destruct (Qlt_le_dec x y) as [Hlt | Hle]; [exact Hlt |].
    apply Qle_bool_iff in Hle. congruence.
  - destruct (Qle_bool y x) eqn:E; [| reflexivity].
    apply Qle_bool_iff in E. lra.
Qed.

Lemma Qltb_ge (x y : Q) : Qltb x y = false <-> y <= x.
Proof.
  unfold Qltb. rewrite negb_false_iff. apply Qle_bool_iff.
Qed.

Lemma contains_one_true (ci : Q * Q) :
  contains_one ci = true <-> fst ci < 1 /\ 1 < snd ci.
Proof.
  unfold contains_one. rewrite andb_true_iff, !Qltb_lt. tauto.
Qed.

Lemma excludes_one_true (ci : Q * Q) :
  excludes_one ci = true <-> 1 <= fst ci \/ snd ci <= 1.
Proof.
  unfold excludes_one, contains_one.
  rewrite negb_true_iff, andb_false_iff, !Qltb_ge. tauto.
Qed.

Lemma Qeq_listb_sound (l1 l2 : list Q) :
  Qeq_listb l1 l2 = true -> Forall2 Qeq l1 l2.
Proof.
  revert l2. induction l1 as [| x t1 IH]; intros [| y t2] H; simpl in H;
    try discriminate; constructor.
  - apply andb_true_iff in H. apply Qeq_bool_iff. tauto.
  - apply IH. apply andb_true_iff in H. tauto.
Qed.

Lemma close_listb_sound (eps : Q) (l1 l2 : list Q) :
  close_listb eps l1 l2 = true ->
  Forall2 (fun x y => Qabs (x - y) <= eps) l1 l2.
Proof.
  revert l2. induction l1 as [| x t1 IH]; intros [| y t2] H; simpl in H;
    try discriminate; constructor.
  - apply andb_true_iff in H. apply Qle_bool_iff. tauto.
  - apply IH. apply andb_true_iff in H. tauto.
Qed.

Lemma nondecreasingb_sound (l : list Q) :
  nondecreasingb l = true -> StronglySorted Qle l.
Proof.
  intro H. apply Sorted_StronglySorted.
  - intros x y z. apply Qle_trans.
  - induction l as [| x t IH]; constructor.
    + apply IH. destruct t as [| y t']; [reflexivity |].
      simpl in H. apply andb_true_iff in H. tauto.
    + destruct t as [| y t']; constructor.
      simpl in H. apply andb_true_iff in H. apply Qle_bool_iff. tauto.
Qed.

(** ** The loop with [break] *)

Lemma last_default_irrelevant {A : Type} (x : A) (l : list A) (d d' : A) :
  last (x :: l) d = last (x :: l) d'.
Proof.
  revert x. induction l as [| y t IH]; intro x; [reflexivity |].
  change (last (y :: t) d = last (y :: t) d'). apply IH.
Qed.

Lemma for_break_cases (stop : Q -> bool) (cls : list Q) (prev : option Q) :
  (exists pre c post,
      cls = pre ++ c :: post /\
      Forall (fun x => stop x = false) pre /\
      stop c = true /\
      for_break stop cls prev = Some c)
  \/ (Forall (fun x => stop x = false) cls /\
      for_break stop cls prev = last (map Some cls) prev).
Proof.
  revert prev. induction cls as [| c rest IH]; intro prev.
  - right. split; [constructor | reflexivity].
  - simpl for_break. destruct (stop c) eqn:Hc.
    + left. exists [], c, rest. auto.
    + destruct (IH (Some c)) as [(pre & c' & post & E & Hpre & Hc' & Hr) | [Hall Hr]].
      * left. exists (c :: pre), c', post. subst rest.
        split; [reflexivity |]. split; [constructor; assumption |]. auto.
      * right. split; [constructor; assumption |].
        rewrite Hr. destruct rest as [| c1 rest']; [reflexivity |].
        change (map Some (c :: c1 :: rest')) with (Some c :: map Some (c1 :: rest')).
        change (last (Some c :: map Some (c1 :: rest')) prev)
          with (last (map Some (c1 :: rest')) prev).
        apply last_default_irrelevant.
Qed.

(** On a non-empty list the loop variable ends bound to the first element
    that triggers [break], or to the last element when none does. *)
Lemma for_break_nonempty (stop : Q -> bool) (c0 : Q) (rest : list Q) :
  exists pre c post,
    c0 :: rest = pre ++ c :: post /\
    Forall (fun x => stop x = false) pre /\
    (stop c = true \/ (post = [] /\ stop c = false)) /\
    for_break stop (c0 :: rest) None = Some c.
Proof.
  destruct (for_break_cases stop (c0 :: rest) None)
    as [(pre & c & post & E & Hpre & Hc & Hr) | [Hall Hr]].
  - exists pre, c, post. auto.
  - destruct (@exists_last _ (c0 :: rest)) as (pre & c & E); [discriminate |].
    exists pre, c, []. rewrite E in Hall, Hr |- *.
    rewrite map_app in Hr. simpl map in Hr. rewrite last_last in Hr.
    apply Forall_app in Hall. destruct Hall as [Hpre Hc].
    inversion Hc; subst.
    split; [reflexivity |]. split; [assumption |]. split; [right; auto | assumption].
Qed.

(** ** The grid *)

(** Every level is within one unit in the last place of its decimal. *)
Lemma conf_levels_grid :
  Forall2 (fun c d => Qabs (c - d) <= ulp_one) conf_levels three_tier_grid.
Proof. apply close_listb_sound. vm_compute. reflexivity. Qed.

Lemma conf_levels_nondecreasing : StronglySorted Qle conf_levels.
Proof. apply nondecreasingb_sound. vm_compute. reflexivity. Qed.

Lemma conf_levels_length : List.length conf_levels = 119%nat.
Proof. vm_compute. reflexivity. Qed.

Lemma conf_levels_bounds (cl : Q) :
  In cl conf_levels -> 0.01 <= cl /\ cl <= last_level.
Proof.
  intro H.
  assert (A : forallb (fun c => Qle_bool 0.01 c && Qle_bool c last_level) conf_levels = true)
    by (vm_compute; reflexivity).
  rewrite forallb_forall in A. specialize (A cl H).
  apply andb_true_iff in A. rewrite !Qle_bool_iff in A. exact A.
Qed.

Lemma conf_levels_cons : exists c0 rest, conf_levels = c0 :: rest.
Proof.
  destruct conf_levels as [| c0 rest] eqn:E.
  - apply (f_equal (@List.length Q)) in E. vm_compute in E. discriminate.
  - eauto.
Qed.

Lemma conf_levels_last_level : last conf_levels 0 == last_level.
Proof. vm_compute. reflexivity. Qed.

Lemma conf_levels_last (pre : list Q) (c : Q) :
  conf_levels = pre ++ [c] -> c == last_level.
Proof.
  intro E. pose proof conf_levels_last_level as L.
  rewrite E, last_last in L. exact L.
Qed.

(** The sweep of [calculate_p_value], for any quantile function. *)
Lemma sweep_spec (ppf : rv_frozen -> Q -> Q) (n : Z) (o e : Q) :
  exists pre cl post,
    conf_levels = pre ++ cl :: post /\
    Forall (fun c => contains_one (ci_ote ppf n o e c) = false) pre /\
    (contains_one (ci_ote ppf n o e cl) = true
     \/ (post = [] /\ contains_one (ci_ote ppf n o e cl) = false)) /\
    calculate_p_value ppf n o e = Returned (1 - cl).
Proof.
  unfold calculate_p_value.
  destruct conf_levels_cons as (c0 & rest & E). rewrite E.
  destruct (for_break_nonempty (fun cl => contains_one (ci_ote ppf n o e cl)) c0 rest)
    as (pre & cl & post & E' & Hpre & Hc & Hr).
  exists pre, cl, post. rewrite Hr. auto.
Qed.

(** ** The equal-tailed interval *)

Lemma inject_Z_pos (n : Z) : (0 < n)%Z -> 0 < inject_Z n.
Proof. intro H. unfold Qlt, inject_Z. simpl. lia. Qed.

Lemma rescale_le (n : Z) (e x y : Q) :
  (0 < n)%Z -> 0 < e -> x <= y -> x * inject_Z n / e <= y * inject_Z n / e.
Proof.
  intros Hn He Hxy. unfold Qdiv.
  apply Qmult_le_compat_r.
  - apply Qmult_le_compat_r; [exact Hxy |].
    apply Qlt_le_weak, inject_Z_pos, Hn.
  - apply Qlt_le_weak, Qinv_lt_0_compat, He.
Qed.

Lemma half_le (x y : Q) : x <= y -> x / 2 <= y / 2.
Proof.
  intro H. unfold Qdiv. apply Qmult_le_compat_r; [exact H | discriminate].
Qed.

(** A higher level gives an interval around the lower level's one. *)
Lemma ci_ote_nested (ppf : rv_frozen -> Q -> Q) (n : Z) (o e cl1 cl2 : Q) :
  quantile_monotone ppf -> (0 < n)%Z -> 0 < e -> cl1 <= cl2 ->
  fst (ci_ote ppf n o e cl2) <= fst (ci_ote ppf n o e cl1) /\
  snd (ci_ote ppf n o e cl1) <= snd (ci_ote ppf n o e cl2).
Proof.
  intros Hm Hn He Hcl. unfold ci_ote.
  destruct (Qeq_bool o 0), (Qeq_bool (inject_Z n) o); cbn [fst snd]; split;
    apply rescale_le; auto; try apply Qle_refl; apply Hm, half_le; lra.
Qed.

Lemma contains_one_upward (ppf : rv_frozen -> Q -> Q) (n : Z) (o e cl1 cl2 : Q) :
  quantile_monotone ppf -> (0 < n)%Z -> 0 < e -> cl1 <= cl2 ->
  contains_one (ci_ote ppf n o e cl1) = true ->
  contains_one (ci_ote ppf n o e cl2) = true.
Proof.
  intros Hm Hn He Hcl H.
  destruct (ci_ote_nested ppf n o e cl1 cl2 Hm Hn He Hcl) as [Hlo Hhi].
  apply contains_one_true in H. apply contains_one_true. lra.
Qed.

Lemma contains_one_Qeq (ppf : rv_frozen -> Q -> Q) (n : Z) (o e cl1 cl2 : Q) :
  quantile_monotone ppf -> (0 < n)%Z -> 0 < e -> cl1 == cl2 ->
  contains_one (ci_ote ppf n o e cl1) = contains_one (ci_ote ppf n o e cl2).
Proof.
  intros Hm Hn He Hcl.
  destruct (contains_one (ci_ote ppf n o e cl1)) eqn:E1;
    destruct (contains_one (ci_ote ppf n o e cl2)) eqn:E2; try reflexivity.
  - rewrite (contains_one_upward ppf n o e cl1 cl2) in E2; auto; lra.
  - rewrite (contains_one_upward ppf n o e cl2 cl1) in E1; auto; lra.
Qed.

(** C4: with o = 0 the lower bound is 0, and with o = n the upper bound
    is n/e, whatever the quantile function and the confidence level. *)
Theorem ci_ote_edge_correction (ppf : rv_frozen -> Q -> Q) (n : Z) (o e cl : Q) :
  valid_input n o e -> valid_level cl ->
  (o == 0 -> fst (ci_ote ppf n o e cl) == 0) /\
  (o == inject_Z n -> snd (ci_ote ppf n o e cl) == inject_Z n / e).
Proof.
  intros _ _. unfold ci_ote. split; intro H.
  - apply Qeq_bool_iff in H. rewrite H.
    destruct (Qeq_bool (inject_Z n) o); cbn [fst snd]; unfold Qdiv;
      rewrite !Qmult_0_l; reflexivity.
  - symmetry in H. apply Qeq_bool_iff in H. rewrite H.
    destruct (Qeq_bool o 0); cbn [fst snd]; unfold Qdiv;
      rewrite Qmult_1_l; reflexivity.
Qed.

Lemma ci_ote_edge_correction_witness :
  fst (ci_ote ppf_uniform 10 0 2 0.95) == 0 /\
  snd (ci_ote ppf_uniform 10 10 5 0.95) == inject_Z 10 / 5.
Proof.
  split.
  - apply (ci_ote_edge_correction ppf_uniform 10 0 2 0.95).
    + valid_by_computation.
    + valid_by_computation.
    + reflexivity.
  - apply (ci_ote_edge_correction ppf_uniform 10 10 5 0.95).
    + valid_by_computation.
    + valid_by_computation.
    + reflexivity.
Defined.

(** C5: for a monotone quantile function and a valid input, raising the
    confidence level never shrinks the interval: the lower bound does not
    go up and the upper bound does not go down. *)
Theorem ci_ote_monotone_in_level
    (ppf : rv_frozen -> Q -> Q) (n : Z) (o e cl1 cl2 : Q) :
  quantile_monotone ppf -> valid_input n o e ->
  valid_level cl1 -> valid_level cl2 -> cl1 < cl2 ->
  fst (ci_ote ppf n o e cl2) <= fst (ci_ote ppf n o e cl1) /\
  snd (ci_ote ppf n o e cl1) <= snd (ci_ote ppf n o e cl2).
Proof.
  intros Hm (Hn & _ & He & _) _ _ Hcl.
  apply ci_ote_nested; auto. apply Qlt_le_weak, Hcl.
Qed.

Lemma ppf_uniform_monotone : quantile_monotone ppf_uniform.
Proof. intros dist q1 q2 H. exact H. Qed.

Lemma ci_ote_monotone_in_level_witness :
  fst (ci_ote ppf_uniform 1 0.5 0.5 0.9) <= fst (ci_ote ppf_uniform 1 0.5 0.5 0.5) /\
  snd (ci_ote ppf_uniform 1 0.5 0.5 0.5) <= snd (ci_ote ppf_uniform 1 0.5 0.5 0.9).
Proof.
  apply ci_ote_monotone_in_level.
  - exact ppf_uniform_monotone.
  - valid_by_computation.
  - valid_by_computation.
  - valid_by_computation.
  - valid_by_computation.
Defined.

(** ** The significance search *)

Lemma conf_levels_in_unit : Forall (fun c => 0 < c /\ c < 1) conf_levels.
Proof.
  apply Forall_forall. intros c Hc.
  destruct (conf_levels_bounds c Hc) as [Hlo Hhi].
  unfold last_level in Hhi. split; [lra |].
  apply Qle_lt_trans with (1 := Hhi). reflexivity.
Qed.

(** C1, as the code has it: the levels are those [np.arange] computes for
    the three tiers (98 levels of step 0.01 from 0.01, 10 of step 0.001
    from 0.99, 11 of step 0.0001 from 0.999), each within one unit in the
    last place of its decimal, all below 1 and swept in non-decreasing
    order; the sweep stops at the first level whose interval strictly
    contains 1 (low < 1 < high), or at the last level when no interval
    does, and 1 - cl for that level is returned. *)
Theorem calculate_p_value_sweep (ppf : rv_frozen -> Q -> Q) (n : Z) (o e : Q) :
  Forall2 (fun c d => Qabs (c - d) <= ulp_one) conf_levels three_tier_grid /\
  StronglySorted Qle conf_levels /\
  Forall (fun c => 0 < c /\ c < 1) conf_levels /\
  exists pre cl post,
    conf_levels = pre ++ cl :: post /\
    Forall (fun c => contains_one (ci_ote ppf n o e c) = false) pre /\
    (contains_one (ci_ote ppf n o e cl) = true \/ post = []) /\
    calculate_p_value ppf n o e = Returned (1 - cl).
Proof.
  split; [exact conf_levels_grid |].
  split; [exact conf_levels_nondecreasing |].
  split; [exact conf_levels_in_unit |].
  destruct (sweep_spec ppf n o e) as (pre & cl & post & E & Hpre & Hc & Hr).
  exists pre, cl, post. intuition.
Qed.

(** C1 as stated fails: for n = 1, o = 0.5, e = 0.1171875 (shape
    Beta(1,1)) the interval at the first level already excludes 1, yet
    the value returned is the complement of the level for 0.77, the first
    whose interval contains 1, and not the complement of the first level.
    Nor is the order strictly increasing: the levels of index 107 and 108
    are the same number, the float 0.999. *)
Lemma calculate_p_value_not_first_excluding :
  valid_input 1 0.5 0.1171875 /\
  excludes_one (ci_ote ppf_uniform 1 0.5 0.1171875 (hd 0 conf_levels)) = true /\
  contains_one (ci_ote ppf_uniform 1 0.5 0.1171875 (nth 76 conf_levels 0)) = true /\
  (exists p,
     calculate_p_value ppf_uniform 1 0.5 0.1171875 = Returned p /\
     p == 1 - nth 76 conf_levels 0 /\ p < 0.24 /\
     ~ p == 1 - hd 0 conf_levels) /\
  nth 107 conf_levels 0 == nth 108 conf_levels 0.
Proof.
  split; [valid_by_computation |].
  split; [vm_compute; reflexivity |].
  split; [vm_compute; reflexivity |].
  split; [| vm_compute; reflexivity].
  eexists. split; [vm_compute; reflexivity |].
  split; [vm_compute; reflexivity |].
  split; [vm_compute; reflexivity |].
  intro H. vm_compute in H. discriminate.
Qed.

(** C2, as the code has it: when every interval of the grid excludes 1 (no
    level has low < 1 < high), the call returns, without raising, 1 - cl
    for the last level swept. *)
Theorem calculate_p_value_floor (ppf : rv_frozen -> Q -> Q) (n : Z) (o e : Q) :
  Forall (fun cl => excludes_one (ci_ote ppf n o e cl) = true) conf_levels ->
  exists p,
    calculate_p_value ppf n o e = Returned p /\
    p == 1 - last conf_levels 0.
Proof.
  intro Hall.
  destruct (sweep_spec ppf n o e) as (pre & cl & post & E & Hpre & Hc & Hr).
  exists (1 - cl). split; [exact Hr |].
  assert (Hpost : post = []).
  { destruct Hc as [Hc | [Hp _]]; [| exact Hp].
    rewrite Forall_forall in Hall.
    assert (Hin : In cl conf_levels) by (rewrite E; apply in_elt).
    specialize (Hall cl Hin). unfold excludes_one in Hall.
    rewrite Hc in Hall. discriminate. }
  subst post. rewrite E, last_last. reflexivity.
Qed.

Lemma calculate_p_value_floor_witness :
  exists p,
    calculate_p_value ppf_uniform 10 10 10 = Returned p /\
    p == 1 - last conf_levels 0.
Proof.
  apply calculate_p_value_floor.
  apply Forall_forall. apply forallb_forall. vm_compute. reflexivity.
Defined.

(** C2 as stated fails: for n = 1, o = 0.5, e = 0.5 (shape Beta(1,1))
    every interval of the grid contains 1, and the value returned is the
    complement of the first level (0.99 once rounded), not that of the
    last. *)
Lemma calculate_p_value_all_contain :
  valid_input 1 0.5 0.5 /\
  Forall (fun cl => contains_one (ci_ote ppf_uniform 1 0.5 0.5 cl) = true)
         conf_levels /\
  exists p,
    calculate_p_value ppf_uniform 1 0.5 0.5 = Returned p /\
    p == 1 - hd 0 conf_levels /\ 0.98 < p /\
    ~ p == 1 - last conf_levels 0.
Proof.
  split; [valid_by_computation |].
  split; [apply Forall_forall, forallb_forall; vm_compute; reflexivity |].
  eexists. split; [vm_compute; reflexivity |].
  split; [vm_compute; reflexivity |].
  split; [vm_compute; reflexivity |].
  intro H. vm_compute in H. discriminate.
Qed.

(** With o = n the upper quantile is replaced by 1, and with e = n too the
    upper bound is 1 itself: the test 1 < high fails at every level. *)
Lemma upper_bound_all_events (ppf : rv_frozen -> Q -> Q) (n : Z) (o e cl : Q) :
  (0 < n)%Z -> o == inject_Z n -> e == inject_Z n ->
  snd (ci_ote ppf n o e cl) == 1.
Proof.
  intros Hn Ho He. unfold ci_ote.
  assert (E : Qeq_bool (inject_Z n) o = true) by (apply Qeq_bool_iff; lra).
  rewrite E. pose proof (inject_Z_pos n Hn) as Hp.
  destruct (Qeq_bool o 0); cbn [fst snd]; rewrite He; field; lra.
Qed.

(** A sweep that never finds 1 inside ends at the last level. *)
Lemma sweep_exhausted (ppf : rv_frozen -> Q -> Q) (n : Z) (o e : Q) :
  (forall cl, contains_one (ci_ote ppf n o e cl) = false) ->
  exists cl, calculate_p_value ppf n o e = Returned (1 - cl) /\ cl == last_level.
Proof.
  intro Hnone.
  destruct (sweep_spec ppf n o e) as (pre & cl & post & E & _ & Hc & Hr).
  exists cl. split; [exact Hr |].
  destruct Hc as [Hc | [Hp _]]; [rewrite Hnone in Hc; discriminate |].
  subst post. exact (conf_levels_last pre cl E).
Qed.

Lemma all_events_never_inside (ppf : rv_frozen -> Q -> Q) (n : Z) (o e cl : Q) :
  (0 < n)%Z -> o == inject_Z n -> e == inject_Z n ->
  contains_one (ci_ote ppf n o e cl) = false.
Proof.
  intros Hn Ho He.
  pose proof (upper_bound_all_events ppf n o e cl Hn Ho He) as Hu.
  destruct (contains_one (ci_ote ppf n o e cl)) eqn:E; [| reflexivity].
  apply contains_one_true in E. lra.
Qed.

(** C10 fails on the code: at n = o = e = 10, a valid input, no interval
    contains 1, the sweep ends at the last level [arange] yields for the
    third tier, which is 1 - 2^-53 and not 0.9999, and the value returned
    is 2^-53, far below 0.0001.  This holds for any quantile function. *)
Theorem calculate_p_value_below_resolution (ppf : rv_frozen -> Q -> Q) :
  valid_input 10 10 10 /\
  exists p,
    calculate_p_value ppf 10 10 10 = Returned p /\
    p == 1 - last conf_levels 0 /\
    p == 1 # 9007199254740992 /\
    p < 1 - 0.9999.
Proof.
  split; [valid_by_computation |].
  destruct (sweep_exhausted ppf 10 10 10) as (cl & Hr & Hcl).
  - intro cl. apply all_events_never_inside; [lia | reflexivity | reflexivity].
  - exists (1 - cl). split; [exact Hr |].
    rewrite Hcl. repeat split; vm_compute; reflexivity.
Qed.

Lemma sorted_around {A : Type} (R : A -> A -> Prop) (pre post : list A) (c : A) :
  StronglySorted R (pre ++ c :: post) ->
  (forall x, In x pre -> R x c) /\ (forall y, In y post -> R c y).
Proof.
  induction pre as [| x pre IH]; simpl; intro H.
  - apply StronglySorted_inv in H. destruct H as [_ H].
    rewrite Forall_forall in H. split; [intros x [] | exact H].
  - apply StronglySorted_inv in H. destruct H as [Hs Hx].
    destruct (IH Hs) as [Hpre Hpost]. split; [| exact Hpost].
    intros z [<- | Hz]; [| apply Hpre, Hz].
    rewrite Forall_forall in Hx. apply Hx, in_elt.
Qed.

Lemma grid_member_by_computation (p : Q) :
  existsb (fun cl => Qeq_bool cl (1 - p)) conf_levels = true ->
  exists cl, In cl conf_levels /\ cl == 1 - p.
Proof.
  intro H. apply existsb_exists in H. destruct H as (cl & Hin & Heq).
  exists cl. split; [exact Hin | apply Qeq_bool_iff, Heq].
Qed.

(** C9: for a monotone quantile function, a valid input and a p whose
    complement 1 - p is a grid level, the call returns some pv such that
    the interval at level 1 - p excluding 1 gives pv <= p, and pv < p gives
    that the interval at level 1 - p excludes 1.  The two sides of the
    duality can differ at the one grid point p = pv only. *)
Theorem interval_p_value_duality
    (ppf : rv_frozen -> Q -> Q) (n : Z) (o e p : Q) :
  quantile_monotone ppf -> valid_input n o e ->
  (exists cl, In cl conf_levels /\ cl == 1 - p) ->
  exists pv,
    calculate_p_value ppf n o e = Returned pv /\
    (excludes_one (ci_ote ppf n o e (1 - p)) = true -> pv <= p) /\
    (pv < p -> excludes_one (ci_ote ppf n o e (1 - p)) = true).
Proof.
  intros Hm (Hn & _ & He & _) (cl & Hin & Hcl).
  destruct (sweep_spec ppf n o e) as (pre & c & post & E & Hpre & Hc & Hr).
  exists (1 - c). split; [exact Hr |].
  pose proof conf_levels_nondecreasing as Hs. rewrite E in Hs.
  destruct (sorted_around Qle pre post c Hs) as [Hbefore Hafter].
  unfold excludes_one.
  rewrite <- (contains_one_Qeq ppf n o e cl (1 - p) Hm Hn He Hcl).
  rewrite E in Hin. apply in_app_or in Hin. split.
  - intro Hex. apply negb_true_iff in Hex.
    destruct Hin as [Hin | [<- | Hin]].
    + specialize (Hbefore cl Hin). lra.
    + lra.
    + destruct Hc as [Hc | [Hp _]]; [| subst post; destruct Hin].
      rewrite (contains_one_upward ppf n o e c cl) in Hex; auto.
      discriminate.
  - intro Hlt. apply negb_true_iff.
    destruct Hin as [Hin | [<- | Hin]].
    + rewrite Forall_forall in Hpre. apply Hpre, Hin.
    + lra.
    + specialize (Hafter cl Hin). lra.
Qed.

Lemma interval_p_value_duality_witness :
  exists pv,
    calculate_p_value ppf_uniform 1 0.5 0.1171875 = Returned pv /\
    (excludes_one (ci_ote ppf_uniform 1 0.5 0.1171875 (1 - 0.25)) = true -> pv <= 0.25) /\
    (pv < 0.25 -> excludes_one (ci_ote ppf_uniform 1 0.5 0.1171875 (1 - 0.25)) = true).
Proof.
  apply interval_p_value_duality.
  - exact ppf_uniform_monotone.
  - valid_by_computation.
  - apply grid_member_by_computation. vm_compute. reflexivity.
Defined.

(** ** Sorting *)

Section SortBy.

Context {A : Type}.
Variable leb : A -> A -> bool.
Hypothesis leb_total : forall x y, leb x y = true \/ leb y x = true.
Hypothesis leb_trans : forall x y z, leb x y = true -> leb y z = true -> leb x z = true.

Let le (x y : A) : Prop := leb x y = true.

Lemma insert_by_perm (x : A) (l : list A) : Permutation (insert_by leb x l) (x :: l).
Proof.
  induction l as [| y t IH]; simpl; [apply Permutation_refl |].
  destruct (leb x y); [apply Permutation_refl |].
  apply perm_trans with (y :: x :: t); [apply perm_skip, IH | apply perm_swap].
Qed.

Lemma sort_by_perm (l : list A) : Permutation (sort_by leb l) l.
Proof.
  induction l as [| x t IH]; simpl; [apply perm_nil |].
  apply perm_trans with (x :: sort_by leb t);
    [apply insert_by_perm | apply perm_skip, IH].
Qed.

Lemma insert_by_sorted (x : A) (l : list A) :
  StronglySorted le l -> StronglySorted le (insert_by leb x l).
Proof.
  induction l as [| y t IH]; simpl; intro H.
  - constructor; constructor.
  - apply StronglySorted_inv in H. destruct H as [Ht Hy].
    destruct (leb x y) eqn:E.
    + constructor; [constructor; assumption |].
      constructor; [exact E |].
      apply Forall_impl with (P := le y); [| exact Hy].
      intros z Hz. apply leb_trans with y; assumption.
    + constructor; [apply IH, Ht |].
      apply (Permutation_Forall (Permutation_sym (insert_by_perm x t))).
      constructor; [| exact Hy].
      destruct (leb_total x y) as [H | H]; [congruence | exact H].
Qed.

Lemma sort_by_sorted (l : list A) : StronglySorted le (sort_by leb l).
Proof.
  induction l as [| x t IH]; simpl; [constructor | apply insert_by_sorted, IH].
Qed.

End SortBy.

(** A list of naturals has one sorted arrangement. *)
Lemma sorted_nat_unique (l1 l2 : list nat) :
  StronglySorted Nat.le l1 -> StronglySorted Nat.le l2 ->
  Permutation l1 l2 -> l1 = l2.
Proof.
  revert l2. induction l1 as [| x t1 IH]; intros l2 H1 H2 P.
  - apply Permutation_nil in P. congruence.
  - destruct l2 as [| y t2].
    + apply Permutation_sym, Permutation_nil in P. discriminate.
    + apply StronglySorted_inv in H1. destruct H1 as [S1 F1].
      apply StronglySorted_inv in H2. destruct H2 as [S2 F2].
      rewrite Forall_forall in F1, F2.
      assert (E : x = y).
      { assert (Hx : In x (y :: t2))
          by (apply (Permutation_in _ P); left; reflexivity).
        assert (Hy : In y (x :: t1))
          by (apply (Permutation_in _ (Permutation_sym P)); left; reflexivity).
        destruct Hx as [Hx | Hx]; [congruence |].
        destruct Hy as [Hy | Hy]; [congruence |].
        specialize (F1 y Hy). specialize (F2 x Hx). lia. }
      subst y. f_equal. apply IH; auto.
      apply Permutation_cons_inv with x. exact P.
Qed.

Lemma seq_sorted (n start : nat) : StronglySorted Nat.le (seq start n).
Proof.
  revert start. induction n as [| n IH]; intro start; simpl; constructor.
  - apply IH.
  - apply Forall_forall. intros x Hx. apply in_seq in Hx. lia.
Qed.

(** ** Average ranks *)

Ltac bool_to_order :=
  repeat match goal with
  | H : Qltb _ _ = true |- _ => apply Qltb_lt in H
  | H : Qltb _ _ = false |- _ => apply Qltb_ge in H
  | H : Qeq_bool _ _ = true |- _ => apply Qeq_bool_iff in H
  | H : Qeq_bool _ _ = false |- _ => apply Qeq_bool_neq in H
  | H : Qle_bool _ _ = true |- _ => apply Qle_bool_iff in H
  end.

Lemma rank_average_Qeq (ps : list Q) (p q : Q) :
  p == q -> rank_average ps p == rank_average ps q.
Proof.
  intro H. unfold rank_average.
  rewrite (filter_ext (fun y => Qltb y p) (fun y => Qltb y q)).
  - rewrite (filter_ext (fun y => Qeq_bool y p) (fun y => Qeq_bool y q));
      [reflexivity |].
    intro y. apply Bool.eq_iff_eq_true. rewrite !Qeq_bool_iff. split; intro; lra.
  - intro y. apply Bool.eq_iff_eq_true. rewrite !Qltb_lt. split; intro; lra.
Qed.

Lemma count_below (ps : list Q) (p q : Q) :
  p < q ->
  (List.length (filter (fun y => Qltb y p) ps)
   + List.length (filter (fun y => Qeq_bool y p) ps)
   <= List.length (filter (fun y => Qltb y q) ps))%nat.
Proof.
  intro H. induction ps as [| y t IH]; simpl; [lia |].
  destruct (Qltb y p) eqn:E1, (Qeq_bool y p) eqn:E2, (Qltb y q) eqn:E3;
    simpl; try lia; bool_to_order; exfalso; lra.
Qed.

Lemma count_member (ps : list Q) (q : Q) :
  In q ps -> (1 <= List.length (filter (fun y => Qeq_bool y q) ps))%nat.
Proof.
  induction ps as [| y t IH]; simpl; [intros [] |].
  intros [-> | H].
  - rewrite (proj2 (Qeq_bool_iff q q) (Qeq_refl q)). simpl. lia.
  - specialize (IH H). destruct (Qeq_bool y q); simpl; lia.
Qed.

Lemma inject_nat_le (m k : nat) :
  (m <= k)%nat -> inject_Z (Z.of_nat m) <= inject_Z (Z.of_nat k).
Proof. intro H. rewrite <- Zle_Qle. lia. Qed.

Lemma inject_nat_plus (m k : nat) :
  inject_Z (Z.of_nat (m + k)) == inject_Z (Z.of_nat m) + inject_Z (Z.of_nat k).
Proof. rewrite Nat2Z.inj_add, inject_Z_plus. reflexivity. Qed.

(** The average rank is strictly increasing along the column's values. *)
Lemma rank_average_lt (ps : list Q) (p q : Q) :
  In q ps -> p < q -> rank_average ps p < rank_average ps q.
Proof.
  intros Hin Hlt. unfold rank_average.
  pose proof (inject_nat_le _ _ (count_below ps p q Hlt)) as H1.
  rewrite inject_nat_plus in H1.
  pose proof (inject_nat_le _ _ (count_member ps q Hin)) as H2.
  pose proof (inject_nat_le 0 (List.length (filter (fun y => Qeq_bool y p) ps))
                (Nat.le_0_l _)) as H3.
  change (inject_Z (Z.of_nat 1)) with 1 in H2.
  change (inject_Z (Z.of_nat 0)) with 0 in H3.
  unfold Qdiv. change (/ 2) with (1 # 2). lra.
Qed.

Lemma rank_average_le (ps : list Q) (p q : Q) :
  In p ps -> rank_average ps p <= rank_average ps q -> p <= q.
Proof.
  intros Hin H. destruct (Qlt_le_dec q p) as [Hlt | Hle]; [| exact Hle].
  pose proof (rank_average_lt ps q p Hin Hlt). lra.
Qed.

(** ** The frame *)

Lemma combine_fst {A B : Type} (l : list A) (l' : list B) :
  List.length l = List.length l' -> map fst (combine l l') = l.
Proof.
  revert l'. induction l as [| x t IH]; intros [| y t'] H; simpl in *;
    try reflexivity; try discriminate.
  f_equal. apply IH. lia.
Qed.

Lemma combine_seq_nth (l : list Q) (s i : nat) (p : Q) :
  In (i, p) (combine (seq s (List.length l)) l) ->
  (s <= i)%nat /\ nth_error l (i - s) = Some p.
Proof.
  revert s. induction l as [| x t IH]; intros s H; simpl in H; [destruct H |].
  destruct H as [H | H].
  - inversion H; subst. rewrite Nat.sub_diag. split; [lia | reflexivity].
  - destruct (IH (S s) H) as [Hle Hn]. split; [lia |].
    replace (i - s)%nat with (S (i - S s)) by lia. exact Hn.
Qed.

Lemma to_frame_index (ps : list Q) :
  map index (to_frame ps) = seq 0 (List.length ps).
Proof.
  unfold to_frame. rewrite map_map. simpl.
  apply combine_fst. apply length_seq.
Qed.

Lemma to_frame_length (ps : list Q) : List.length (to_frame ps) = List.length ps.
Proof.
  rewrite <- (length_map index), to_frame_index. apply length_seq.
Qed.

Lemma to_frame_row (ps : list Q) (r : row) :
  In r (to_frame ps) ->
  nth_error ps (index r) = Some (p_val r) /\
  rank r = rank_average ps (p_val r).
Proof.
  unfold to_frame. intro H. apply in_map_iff in H.
  destruct H as ([i p] & <- & H). simpl.
  apply combine_seq_nth in H. destruct H as [_ H].
  rewrite Nat.sub_0_r in H. auto.
Qed.

Lemma combine_seq_nth_error (l : list Q) (s i : nat) (q : Q) :
  nth_error l i = Some q ->
  nth_error (combine (seq s (List.length l)) l) i = Some ((s + i)%nat, q).
Proof.
  revert s i. induction l as [| x t IH]; intros s i H.
  - destruct i; discriminate H.
  - destruct i as [| i]; simpl in *.
    + inversion H; subst. rewrite Nat.add_0_r. reflexivity.
    + rewrite (IH (S s) i H). do 2 f_equal. lia.
Qed.

Lemma to_frame_complete (ps : list Q) (q : Q) :
  In q ps -> exists r, In r (to_frame ps) /\ p_val r = q.
Proof.
  intro H. apply In_nth_error in H. destruct H as [i H].
  apply (combine_seq_nth_error ps 0 i q) in H. apply nth_error_In in H.
  eexists. split.
  - unfold to_frame. apply in_map_iff. eexists. split; [reflexivity | exact H].
  - reflexivity.
Qed.

(** ** The running minimum *)

Lemma cummin_from_length (m : Q) (l : list Q) :
  List.length (cummin_from m l) = List.length l.
Proof.
  revert m. induction l as [| x t IH]; intro m; simpl; [reflexivity |].
  rewrite IH. reflexivity.
Qed.

Lemma cummin_length (l : list Q) : List.length (cummin l) = List.length l.
Proof.
  destruct l as [| x t]; simpl; [reflexivity |].
  rewrite cummin_from_length. reflexivity.
Qed.

Section Cummin.

Context {A : Type}.
Variable f : A -> Q.

Lemma cummin_from_in (s : list A) (m : Q) (r : A) (x : Q) :
  In (r, x) (combine s (cummin_from m (map f s))) ->
  exists pre post,
    s = pre ++ r :: post /\
    x <= m /\
    (forall r', In r' (pre ++ [r]) -> x <= f r') /\
    (x == m \/ exists r', In r' (pre ++ [r]) /\ x == f r').
Proof.
  revert m. induction s as [| r0 t IH]; intros m H; simpl in H; [destruct H |].
  destruct H as [H | H].
  - inversion H; subst. exists [], t. split; [reflexivity |].
    split; [apply Q.le_min_l |]. split.
    + intros r' [<- | []]. apply Q.le_min_r.
    + destruct (Q.min_dec m (f r)) as [E | E]; [left; exact E |].
      right. exists r. split; [left; reflexivity | exact E].
  - destruct (IH _ H) as (pre & post & E & Hm & Hall & Hex).
    exists (r0 :: pre), post. subst t. split; [reflexivity |].
    pose proof (Q.le_min_l m (f r0)) as L1.
    pose proof (Q.le_min_r m (f r0)) as L2.
    split; [lra |]. split.
    + intros r' [<- | Hr']; [lra | apply Hall, Hr'].
    + destruct Hex as [Hx | (r' & Hr' & Hx)].
      * destruct (Q.min_dec m (f r0)) as [E | E].
        -- left. lra.
        -- right. exists r0. split; [left; reflexivity | lra].
      * right. exists r'. split; [right; exact Hr' | exact Hx].
Qed.

Lemma cummin_in (s : list A) (r : A) (x : Q) :
  In (r, x) (combine s (cummin (map f s))) ->
  exists pre post,
    s = pre ++ r :: post /\
    (forall r', In r' (pre ++ [r]) -> x <= f r') /\
    (exists r', In r' (pre ++ [r]) /\ x == f r').
Proof.
  destruct s as [| r0 t]; simpl; [intros [] |].
  intros [H | H].
  - inversion H; subst. exists [], t. split; [reflexivity |]. split.
    + intros r' [<- | []]. apply Qle_refl.
    + exists r. split; [left; reflexivity | reflexivity].
  - destruct (cummin_from_in t (f r0) r x H) as (pre & post & E & Hm & Hall & Hex).
    exists (r0 :: pre), post. subst t. split; [reflexivity |]. split.
    + intros r' [<- | Hr']; [exact Hm | apply Hall, Hr'].
    + destruct Hex as [Hx | (r' & Hr' & Hx)].
      * exists r0. split; [left; reflexivity | exact Hx].
      * exists r'. split; [right; exact Hr' | exact Hx].
Qed.

End Cummin.

Lemma in_combine_map_r {A : Type} (g : Q -> Q) (s : list A) (l : list Q) (r : A) (x : Q) :
  In (r, x) (combine s (map g l)) ->
  exists x0, x = g x0 /\ In (r, x0) (combine s l).
Proof.
  revert l. induction s as [| r0 t IH]; intros [| y l'] H; simpl in H;
    try destruct H as [H | H]; try contradiction.
  - inversion H; subst. exists y. split; [reflexivity | left; reflexivity].
  - destruct (IH l' H) as (x0 & E & Hin). exists x0. split; [exact E | right; exact Hin].
Qed.

(** ** The adjustment *)

Lemma rank_desc_total (r1 r2 : row) :
  rank_desc r1 r2 = true \/ rank_desc r2 r1 = true.
Proof.
  unfold rank_desc. rewrite !Qle_bool_iff.
  destruct (Qlt_le_dec (rank r1) (rank r2)) as [H | H]; [right | left]; lra.
Qed.

Lemma rank_desc_trans (r1 r2 r3 : row) :
  rank_desc r1 r2 = true -> rank_desc r2 r3 = true -> rank_desc r1 r3 = true.
Proof. unfold rank_desc. rewrite !Qle_bool_iff. lra. Qed.

Lemma index_asc_total (x y : row * Q) :
  index_asc x y = true \/ index_asc y x = true.
Proof. unfold index_asc. rewrite !Nat.leb_le. lia. Qed.

Lemma index_asc_trans (x y z : row * Q) :
  index_asc x y = true -> index_asc y z = true -> index_asc x z = true.
Proof. unfold index_asc. rewrite !Nat.leb_le. lia. Qed.

Lemma bh_raw_Qeq (ps : list Q) (p q : Q) : p == q -> bh_raw ps p == bh_raw ps q.
Proof.
  intro H. unfold bh_raw. rewrite (rank_average_Qeq ps p q H), H. reflexivity.
Qed.

(** Each entry of the adjusted column, in the frame sorted by descending
    rank, is the least of 1 and the step-up values of the rows whose
    p-value is at least the entry's. *)
Lemma adjusted_entry (ps : list Q) (s : list row) (r : row) (x : Q) :
  s = sort_by rank_desc (to_frame ps) ->
  In (r, x)
     (combine s
        (map (fun x => Qmin x 1)
           (cummin
              (map (fun r => p_val r * inject_Z (Z.of_nat (List.length s)) / rank r) s)))) ->
  In r (to_frame ps) /\ is_bh_adjusted ps (p_val r) x.
Proof.
  intros Hs Hin.
  assert (Hperm : Permutation s (to_frame ps)) by (subst s; apply sort_by_perm).
  assert (Hsorted : StronglySorted (fun x y => rank_desc x y = true) s).
  { subst s. apply sort_by_sorted; [exact rank_desc_total | exact rank_desc_trans]. }
  assert (Hlen : List.length s = List.length ps).
  { rewrite (Permutation_length Hperm). apply to_frame_length. }
  set (raw := fun r => p_val r * inject_Z (Z.of_nat (List.length s)) / rank r) in Hin.
  assert (Hrow : forall r', In r' s ->
            In (p_val r') ps /\ raw r' = bh_raw ps (p_val r') /\
            rank r' = rank_average ps (p_val r')).
  { intros r' H'. apply (Permutation_in _ Hperm) in H'.
    destruct (to_frame_row ps r' H') as [Hn Hr]. split.
    - apply nth_error_In with (index r'). exact Hn.
    - unfold raw, bh_raw. rewrite Hlen, Hr. auto. }
  clear Hs.
  apply in_combine_map_r in Hin. destruct Hin as (x0 & -> & Hin).
  apply cummin_in in Hin.
  destruct Hin as (pre & post & E & Hall & (r1 & Hr1 & Hx0)).
  rewrite E in Hsorted.
  destruct (sorted_around _ pre post r Hsorted) as [Hbefore Hafter].
  assert (Hr : In r s) by (rewrite E; apply in_elt).
  destruct (Hrow r Hr) as (Hrin & Hrraw & Hrrank).
  split; [apply (Permutation_in _ Hperm), Hr |].
  pose proof (Q.le_min_l x0 1) as Lx. pose proof (Q.le_min_r x0 1) as L1.
  split; [exact L1 |]. split.
  - intros q Hq Hpq.
    destruct (to_frame_complete ps q Hq) as (r' & Hr' & <-).
    apply (Permutation_in _ (Permutation_sym Hperm)) in Hr'.
    destruct (Hrow r' Hr') as (Hin' & Hraw' & Hrank').
    rewrite <- Hraw'.
    assert (Hself : x0 <= raw r) by (apply Hall, in_or_app; right; left; reflexivity).
    rewrite E in Hr'. apply in_app_or in Hr'. destruct Hr' as [Hp | [<- | Hp]].
    + specialize (Hall r' (in_or_app _ _ _ (or_introl Hp))). lra.
    + lra.
    + specialize (Hafter r' Hp). unfold rank_desc in Hafter.
      apply Qle_bool_iff in Hafter. rewrite Hrank', Hrrank in Hafter.
      apply (rank_average_le ps _ _ Hin') in Hafter.
      assert (Heq : p_val r' == p_val r) by lra.
      rewrite Hraw', (bh_raw_Qeq ps _ _ Heq), <- Hrraw. lra.
  - destruct (Q.min_dec x0 1) as [E1 | E1]; [right | left; exact E1].
    assert (Hr1s : In r1 s).
    { rewrite E. apply in_app_or in Hr1. apply in_or_app.
      destruct Hr1 as [H | [<- | []]]; [left; exact H | right; left; reflexivity]. }
    destruct (Hrow r1 Hr1s) as (Hin1 & Hraw1 & Hrank1).
    exists (p_val r1). split; [exact Hin1 |]. split.
    + apply in_app_or in Hr1. destruct Hr1 as [H | [<- | []]]; [| apply Qle_refl].
      specialize (Hbefore r1 H). unfold rank_desc in Hbefore.
      apply Qle_bool_iff in Hbefore. rewrite Hrank1, Hrrank in Hbefore.
      apply (rank_average_le ps _ _ Hrin). exact Hbefore.
    + rewrite <- Hraw1. lra.
Qed.

Lemma sorted_by_index (l : list (row * Q)) :
  StronglySorted (fun x y => index_asc x y = true) l ->
  StronglySorted Nat.le (map (fun rx => index (fst rx)) l).
Proof.
  induction 1 as [| x t Ht IH Hx]; simpl; constructor; [exact IH |].
  apply Forall_map. apply Forall_impl with (2 := Hx).
  intros y Hy. unfold index_asc in Hy. apply Nat.leb_le. exact Hy.
Qed.

Lemma bh_frame_index (ps : list Q) :
  map fst (bh_frame ps) = seq 0 (List.length ps).
Proof.
  unfold bh_frame. cbv zeta.
  set (s := sort_by rank_desc (to_frame ps)).
  set (adj := map (fun x => Qmin x 1) _).
  rewrite map_map. cbn [fst].
  apply sorted_nat_unique.
  - apply sorted_by_index, sort_by_sorted;
      [exact index_asc_total | exact index_asc_trans].
  - apply seq_sorted.
  - apply perm_trans with (map (fun rx => index (fst rx)) (combine s adj)).
    + apply Permutation_map, sort_by_perm.
    + rewrite <- (map_map fst index), combine_fst.
      * rewrite <- to_frame_index. apply Permutation_map, sort_by_perm.
      * unfold adj. rewrite length_map, cummin_length, length_map. reflexivity.
Qed.

Lemma bh_frame_length (ps : list Q) : List.length (bh_frame ps) = List.length ps.
Proof.
  rewrite <- (length_map fst), bh_frame_index. apply length_seq.
Qed.

Lemma bh_frame_entry (ps : list Q) (i : nat) (x : Q) :
  In (i, x) (bh_frame ps) ->
  exists p, nth_error ps i = Some p /\ is_bh_adjusted ps p x.
Proof.
  unfold bh_frame. cbv zeta. intro H.
  apply in_map_iff in H. destruct H as ([r y] & E & H). simpl in E.
  inversion E; subst. clear E.
  apply (Permutation_in _ (sort_by_perm index_asc _)) in H.
  apply (adjusted_entry ps) in H; [| reflexivity].
  destruct H as [Hr Hadj]. exists (p_val r). split; [| exact Hadj].
  apply to_frame_row, Hr.
Qed.

Lemma is_bh_adjusted_mono (ps : list Q) (p q x y : Q) :
  p <= q -> is_bh_adjusted ps p x -> is_bh_adjusted ps q y -> x <= y.
Proof.
  intros Hpq (Hx1 & Hxall & _) (_ & _ & [Hy | (q' & Hin & Hq' & Hy)]).
  - lra.
  - specialize (Hxall q' Hin). lra.
Qed.

Lemma astype_float_numbers (ps : list Q) :
  astype_float (map PyNum ps) = Returned ps.
Proof.
  induction ps as [| p t IH]; simpl; [reflexivity |].
  rewrite IH. reflexivity.
Qed.

Lemma astype_float_numeric (items : list pyelem) :
  Forall is_numeric items -> exists ps, astype_float items = Returned ps.
Proof.
  induction 1 as [| x t Hx _ (ps & IH)]; simpl; [eexists; reflexivity |].
  destruct x; simpl in Hx; try contradiction.
  rewrite IH. simpl. eexists. reflexivity.
Qed.

Lemma astype_float_raises (items : list pyelem) (e : exn) :
  astype_float items = Raised e ->
  exists item, In (PyOther item) items /\ e = ValueError (conversion_msg ++ item)%string.
Proof.
  induction items as [| x t IH]; simpl; [discriminate |].
  destruct x as [q | r q | r]; simpl.
  - destruct (astype_float t); simpl; [discriminate |].
    intro H. inversion H; subst. destruct (IH eq_refl) as (item & Hin & E).
    exists item. auto.
  - destruct (astype_float t); simpl; [discriminate |].
    intro H. inversion H; subst. destruct (IH eq_refl) as (item & Hin & E).
    exists item. auto.
  - intro H. inversion H; subst. exists r. auto.
Qed.

(** The two ValueErrors differ in their first letter. *)
Lemma conversion_is_not_guard (item r : string) :
  (conversion_msg ++ item)%string <> (not_iterable_msg ++ r)%string.
Proof. unfold conversion_msg, not_iterable_msg. simpl. discriminate. Qed.

(** C6: on a batch of numbers the call returns a Series of the batch's
    length, labelled 0 .. m-1 in order; the value at label i is the least
    of 1 and p_j * m / rank_j over the entries p_j >= p_i; every value is
    at most 1; and p_i <= p_j gives value_i <= value_j. *)
Theorem BH_adjusted_pval_aligned_monotone (repr : string) (ps : list Q) :
  exists out,
    BH_adjusted_pval (py_list repr ps) = Returned out /\
    List.length out = List.length ps /\
    map fst out = seq 0 (List.length ps) /\
    (forall i p, nth_error ps i = Some p ->
       exists x, nth_error out i = Some (i, x) /\ is_bh_adjusted ps p x) /\
    Forall (fun x => x <= 1) (values out) /\
    (forall i j p q x y,
       nth_error ps i = Some p -> nth_error ps j = Some q ->
       nth_error (values out) i = Some x -> nth_error (values out) j = Some y ->
       p <= q -> x <= y).
Proof.
  exists (bh_frame ps).
  assert (Halign : forall i p, nth_error ps i = Some p ->
            exists x, nth_error (bh_frame ps) i = Some (i, x) /\ is_bh_adjusted ps p x).
  { intros i p Hp.
    assert (Hi : (i < List.length (bh_frame ps))%nat).
    { rewrite bh_frame_length. apply nth_error_Some. congruence. }
    destruct (nth_error (bh_frame ps) i) as [[k x] |] eqn:E;
      [| apply nth_error_Some in Hi; contradiction].
    assert (Hk : nth_error (map fst (bh_frame ps)) i = Some k)
      by (rewrite nth_error_map, E; reflexivity).
    rewrite bh_frame_index in Hk.
    assert (k = i).
    { rewrite bh_frame_length in Hi.
      rewrite nth_error_nth' with (d := 0%nat) in Hk by (rewrite length_seq; lia).
      rewrite seq_nth in Hk by lia. inversion Hk. lia. }
    subst k. exists x. split; [reflexivity |].
    destruct (bh_frame_entry ps i x (nth_error_In _ _ E)) as (p' & Hp' & Hadj).
    congruence. }
  split.
  { unfold BH_adjusted_pval, py_list. rewrite astype_float_numbers. reflexivity. }
  split; [apply bh_frame_length |].
  split; [apply bh_frame_index |].
  split; [exact Halign |].
  split.
  - apply Forall_forall. intros x Hx. unfold values in Hx.
    apply in_map_iff in Hx. destruct Hx as ([i x'] & <- & Hin).
    destruct (bh_frame_entry ps i x' Hin) as (p & _ & H1 & _). exact H1.
  - intros i j p q x y Hp Hq Hx Hy Hpq.
    destruct (Halign i p Hp) as (x' & Ex & Hadjx).
    destruct (Halign j q Hq) as (y' & Ey & Hadjy).
    unfold values in Hx, Hy. rewrite nth_error_map in Hx, Hy.
    rewrite Ex in Hx. rewrite Ey in Hy. simpl in Hx, Hy.
    inversion Hx; inversion Hy; subst.
    apply (is_bh_adjusted_mono ps p q); assumption.
Qed.

Lemma all_equal_counts (ps : list Q) (p q : Q) :
  Forall (fun y => y == p) ps -> q == p ->
  List.length (filter (fun y => Qltb y q) ps) = 0%nat /\
  List.length (filter (fun y => Qeq_bool y q) ps) = List.length ps.
Proof.
  intros Hall Hq. induction Hall as [| y t Hy _ [IH1 IH2]]; simpl; [auto |].
  assert (E1 : Qltb y q = false) by (apply Qltb_ge; lra).
  assert (E2 : Qeq_bool y q = true) by (apply Qeq_bool_iff; lra).
  rewrite E1, E2. simpl. auto.
Qed.

(** A batch of m equal values p comes back as m times
    min(1, p * m / ((m + 1) / 2)): every entry has the average rank
    (m + 1) / 2. *)
Lemma bh_frame_all_equal (ps : list Q) (p : Q) :
  Forall (fun q => q == p) ps ->
  Forall (fun x =>
            x == Qmin (p * inject_Z (Z.of_nat (List.length ps))
                       / ((inject_Z (Z.of_nat (List.length ps)) + 1) / 2)) 1)
         (values (bh_frame ps)).
Proof.
  intro Hall. apply Forall_forall. intros x Hx. unfold values in Hx.
  apply in_map_iff in Hx. destruct Hx as ([i x'] & <- & Hin). simpl.
  destruct (bh_frame_entry ps i x' Hin) as (p' & Hp' & H1 & Hle & Hex).
  assert (Hraw : forall q, In q ps ->
            bh_raw ps q == p * inject_Z (Z.of_nat (List.length ps))
                           / ((inject_Z (Z.of_nat (List.length ps)) + 1) / 2)).
  { intros q Hq. pose proof Hall as Hall'. rewrite Forall_forall in Hall'.
    specialize (Hall' q Hq). simpl in Hall'.
    destruct (all_equal_counts ps p q Hall Hall') as [C1 C2].
    unfold bh_raw, rank_average. rewrite C1, C2, Hall'.
    change (inject_Z (Z.of_nat 0)) with 0. rewrite Qplus_0_l. reflexivity. }
  assert (Hp'in : In p' ps) by (apply nth_error_In with i; exact Hp').
  specialize (Hle p' Hp'in (Qle_refl p')). rewrite (Hraw p' Hp'in) in Hle.
  set (v := p * inject_Z (Z.of_nat (List.length ps))
            / ((inject_Z (Z.of_nat (List.length ps)) + 1) / 2)) in *.
  assert (Hx : x' == 1 \/ x' == v).
  { destruct Hex as [Hx | (q & Hq & _ & Hx)]; [left; exact Hx |].
    right. rewrite Hx. apply Hraw, Hq. }
  destruct (Q.min_spec v 1) as [[Hlt Hm] | [Hge Hm]]; rewrite Hm;
    destruct Hx as [Hx | Hx]; lra.
Qed.

(** C3: the batch [[0.3; 0.3]] comes back as [[0.4; 0.4]]: each tied value
    gets the average rank 1.5, hence 0.3 * 2 / 1.5, and not 0.3. *)
Theorem BH_adjusted_pval_tied_pair :
  exists out,
    BH_adjusted_pval (py_list "[0.3, 0.3]" [0.3; 0.3]) = Returned out /\
    Forall2 Qeq (map (rank_average [0.3; 0.3]) [0.3; 0.3]) [1.5; 1.5] /\
    Forall2 Qeq (values out) [0.4; 0.4] /\
    ~ Forall2 Qeq (values out) [0.3; 0.3].
Proof.
  eexists. split; [vm_compute; reflexivity |].
  split; [apply Qeq_listb_sound; vm_compute; reflexivity |].
  split; [apply Qeq_listb_sound; vm_compute; reflexivity |].
  intro H. inversion H as [| ? ? ? ? Hx _]; subst.
  vm_compute in Hx. discriminate.
Qed.

(** C8, as the code has it: the ValueError of the guard, whose message
    names the received value, is raised exactly when the argument is not
    iterable, and every list of numbers is adjusted and returned. *)
Theorem BH_adjusted_pval_guard (p_vals : pyobj) :
  (BH_adjusted_pval p_vals
   = Raised (ValueError (not_iterable_msg ++ repr_of p_vals)%string)
   <-> exists r, p_vals = NotIterable r) /\
  (forall r items,
     p_vals = IterableOf r items -> Forall is_numeric items ->
     exists out, BH_adjusted_pval p_vals = Returned out).
Proof.
  split.
  - split.
    + destruct p_vals as [r | r items | r items]; simpl.
      * intros _. exists r. reflexivity.
      * destruct (astype_float items) as [ps | e] eqn:E; simpl; [discriminate |].
        intro H. destruct (astype_float_raises items e E) as (item & _ & ->).
        exfalso. apply (conversion_is_not_guard item r). now inversion H.
      * discriminate.
    + intros (r & ->). reflexivity.
  - intros r items -> Hnum. simpl.
    destruct (astype_float_numeric items Hnum) as (ps & E).
    rewrite E. simpl. eexists. reflexivity.
Qed.

Lemma BH_adjusted_pval_guard_witness :
  exists out,
    BH_adjusted_pval (IterableOf "[0.02, 0.29]" [PyNum 0.02; PyNum 0.29]) = Returned out.
Proof.
  apply (proj2 (BH_adjusted_pval_guard
                  (IterableOf "[0.02, 0.29]" [PyNum 0.02; PyNum 0.29]))
           "[0.02, 0.29]"%string [PyNum 0.02; PyNum 0.29]).
  - reflexivity.
  - repeat constructor.
Defined.

(** C8 as stated fails, in both directions.  A list holding the string
    '0.5' is not an iterable of numbers, yet the call returns.  A set of
    two numbers is an iterable of numbers, yet the call raises, and the
    error is the TypeError of [pd.Series].  And a list holding the string
    'a' raises the ValueError of the float conversion, whose message names
    the item and not the received value. *)
Lemma BH_adjusted_pval_non_numeric_items :
  (~ Forall is_numeric [PyCoercible "'0.5'" 0.5] /\
   exists out,
     BH_adjusted_pval (IterableOf "['0.5']" [PyCoercible "'0.5'" 0.5]) = Returned out) /\
  (Forall is_numeric [PyNum 0.02; PyNum 0.29] /\
   BH_adjusted_pval (PySet "{0.02, 0.29}" [PyNum 0.02; PyNum 0.29])
   = Raised (PyTypeError unordered_msg)) /\
  (~ Forall is_numeric [PyOther "'a'"] /\
   BH_adjusted_pval (IterableOf "['a']" [PyOther "'a'"])
   = Raised (ValueError (conversion_msg ++ "'a'")%string) /\
   BH_adjusted_pval (IterableOf "['a']" [PyOther "'a'"])
   <> Raised (ValueError (not_iterable_msg ++ "['a']")%string)).
Proof.
  split; [split |].
  - intro H. inversion H; subst. simpl in *. contradiction.
  - eexists. vm_compute. reflexivity.
  - split; [split; [repeat constructor | reflexivity] |].
    split; [intro H; inversion H; subst; simpl in *; contradiction |].
    split; [reflexivity |].
    intro H. apply (conversion_is_not_guard "'a'" "['a']"). now inversion H.
Qed.

(** * Further properties of the code *)

(** ** The interval lies between 0 and n/e *)

Lemma rescale_bounds (n : Z) (e x y : Q) :
  (0 < n)%Z -> 0 < e -> 0 <= x -> x <= y -> y <= 1 ->
  0 <= x * inject_Z n / e /\
  x * inject_Z n / e <= y * inject_Z n / e /\
  y * inject_Z n / e <= inject_Z n / e.
Proof.
  intros Hn He H0 Hxy H1.
  pose proof (rescale_le n e 0 x Hn He H0) as A.
  pose proof (rescale_le n e x y Hn He Hxy) as B.
  pose proof (rescale_le n e y 1 Hn He H1) as C.
  unfold Qdiv in *. rewrite !Qmult_0_l in A. rewrite Qmult_1_l in C. auto.
Qed.

Lemma tail_probabilities (cl : Q) :
  valid_level cl ->
  0 <= (1 - cl) / 2 /\ (1 - cl) / 2 <= (1 + cl) / 2 /\ (1 + cl) / 2 <= 1.
Proof.
  intros [H0 H1]. unfold Qdiv. change (/ 2) with (1 # 2). repeat split; lra.
Qed.

(** X1: for a monotone quantile function with values in [0,1], the interval of
    a valid input at a valid level satisfies 0 <= low <= high <= n/e. *)
Theorem ci_ote_bounds (ppf : rv_frozen -> Q -> Q) (n : Z) (o e cl : Q) :
  quantile_monotone ppf -> quantile_in_unit ppf ->
  valid_input n o e -> valid_level cl ->
  0 <= fst (ci_ote ppf n o e cl) /\
  fst (ci_ote ppf n o e cl) <= snd (ci_ote ppf n o e cl) /\
  snd (ci_ote ppf n o e cl) <= inject_Z n / e.
Proof.
  intros Hm Hu (Hn & _ & He & _) Hcl.
  destruct (tail_probabilities cl Hcl) as (T0 & T1 & T2).
  set (dist := beta (1 / 2 + o) (1 / 2 + inject_Z n - o)).
  assert (Hlo : 0 <= ppf dist ((1 - cl) / 2) /\ ppf dist ((1 - cl) / 2) <= 1)
    by (apply Hu; lra).
  assert (Hhi : 0 <= ppf dist ((1 + cl) / 2) /\ ppf dist ((1 + cl) / 2) <= 1)
    by (apply Hu; lra).
  pose proof (Hm dist _ _ T1) as Hlh.
  unfold ci_ote. fold dist.
  destruct (Qeq_bool o 0), (Qeq_bool (inject_Z n) o); cbn [fst snd];
    apply rescale_bounds; auto; lra.
Qed.

Lemma ppf_uniform_in_unit : quantile_in_unit ppf_uniform.
Proof. intros dist q H0 H1. unfold ppf_uniform. split; assumption. Qed.

Lemma ci_ote_bounds_witness :
  0 <= fst (ci_ote ppf_uniform 1 0.5 0.4 0.95) /\
  fst (ci_ote ppf_uniform 1 0.5 0.4 0.95) <= snd (ci_ote ppf_uniform 1 0.5 0.4 0.95) /\
  snd (ci_ote ppf_uniform 1 0.5 0.4 0.95) <= inject_Z 1 / 0.4.
Proof.
  apply ci_ote_bounds.
  - exact ppf_uniform_monotone.
  - exact ppf_uniform_in_unit.
  - valid_by_computation.
  - valid_by_computation.
Defined.

(** ** Significance markers *)

Lemma count_stars_app (s t : string) :
  count_stars (s ++ t) = (count_stars s + count_stars t)%nat.
Proof.
  induction s as [| c s IH]; simpl; [reflexivity |]. rewrite IH. lia.
Qed.

Lemma digits_no_star (k : Z) : count_stars (digits_of k) = 0%nat.
Proof.
  unfold digits_of.
  assert (H : forall d, count_stars (NilEmpty.string_of_uint d) = 0%nat)
    by (induction d; simpl; auto).
  destruct (N.to_uint (Z.to_N k)); simpl; try apply H; reflexivity.
Qed.

Lemma str_round3_no_star (p : Q) : count_stars (str_round3 p) = 0%nat.
Proof.
  unfold str_round3, str_milli. cbv zeta.
  repeat (rewrite count_stars_app || rewrite digits_no_star).
  destruct (_ =? 0)%Z; [| destruct (_ =? 0)%Z];
    repeat (rewrite count_stars_app || rewrite digits_no_star); reflexivity.
Qed.

(** The number of markers of a label, by the band of its p-value. *)
Lemma stars_by_band (p : Q) :
  count_stars (p_val_to_str p) =
  if Qltb p 0.001 then 3%nat
  else if Qltb p 0.01 then 2%nat
  else if Qltb p 0.05 then 1%nat
  else 0%nat.
Proof.
  unfold p_val_to_str.
  destruct (Qltb p 0.001); [reflexivity |].
  destruct (Qltb p 0.01); [| destruct (Qltb p 0.05)];
    rewrite count_stars_app, str_round3_no_star; reflexivity.
Qed.

(** X3: the label of a p-value carries three markers below 0.001, two in
    [0.001, 0.01), one in [0.01, 0.05) and none from 0.05 on; the printed
    number adds none. *)
Theorem p_val_to_str_markers (p : Q) :
  (p < 0.001 -> count_stars (p_val_to_str p) = 3%nat) /\
  (0.001 <= p -> p < 0.01 -> count_stars (p_val_to_str p) = 2%nat) /\
  (0.01 <= p -> p < 0.05 -> count_stars (p_val_to_str p) = 1%nat) /\
  (0.05 <= p -> count_stars (p_val_to_str p) = 0%nat).
Proof.
  rewrite stars_by_band.
  destruct (Qltb p 0.001) eqn:E1, (Qltb p 0.01) eqn:E2, (Qltb p 0.05) eqn:E3;
    bool_to_order; repeat split; intros; try reflexivity; exfalso; lra.
Qed.

Lemma p_val_to_str_markers_witness :
  count_stars (p_val_to_str 0.02) = 1%nat.
Proof.
  apply (proj1 (proj2 (proj2 (p_val_to_str_markers 0.02)))); valid_by_computation.
Defined.

(** X4: a smaller p-value never gets fewer markers. *)
Theorem p_val_to_str_antitone (p q : Q) :
  p <= q -> (count_stars (p_val_to_str q) <= count_stars (p_val_to_str p))%nat.
Proof.
  intro H. rewrite !stars_by_band.
  destruct (Qltb p 0.001) eqn:P1, (Qltb p 0.01) eqn:P2, (Qltb p 0.05) eqn:P3,
           (Qltb q 0.001) eqn:Q1, (Qltb q 0.01) eqn:Q2, (Qltb q 0.05) eqn:Q3;
    try lia; bool_to_order; exfalso; lra.
Qed.

Lemma p_val_to_str_antitone_witness :
  (count_stars (p_val_to_str 0.29) <= count_stars (p_val_to_str 0.02))%nat.
Proof.
  apply p_val_to_str_antitone. valid_by_computation.
Defined.

(** ** A sweep that never finds 1 inside *)

(** X2: when every observation is an event and as many are expected
    (o = n = e, so OTE = 1), the upper bound is exactly 1 at every level,
    1 is never strictly inside, and the call returns the complement of the
    last level swept, which is displayed as the most significant label. *)
Theorem calculate_p_value_all_events
    (ppf : rv_frozen -> Q -> Q) (n : Z) (o e : Q) :
  (0 < n)%Z -> o == inject_Z n -> e == inject_Z n ->
  valid_input n o e /\
  (forall cl, snd (ci_ote ppf n o e cl) == 1) /\
  exists p,
    calculate_p_value ppf n o e = Returned p /\
    p == 1 - last conf_levels 0 /\
    p_val_to_str p = "0.001 (<) ***"%string.
Proof.
  intros Hn Ho He. pose proof (inject_Z_pos n Hn) as Hpos.
  split; [unfold valid_input; repeat split; auto; lra |].
  split; [intro cl; apply upper_bound_all_events; assumption |].
  destruct (sweep_exhausted ppf n o e) as (cl & Hr & Hcl).
  - intro cl. apply all_events_never_inside; assumption.
  - exists (1 - cl). split; [exact Hr |].
    split; [rewrite conf_levels_last_level; lra |].
    unfold p_val_to_str.
    assert (Hs : Qltb (1 - cl) 0.001 = true).
    { apply Qltb_lt. rewrite Hcl. reflexivity. }
    rewrite Hs. reflexivity.
Qed.

Lemma calculate_p_value_all_events_witness :
  exists p,
    calculate_p_value ppf_uniform 3 3 3 = Returned p /\
    p == 1 - last conf_levels 0 /\
    p_val_to_str p = "0.001 (<) ***"%string.
Proof.
  apply (calculate_p_value_all_events ppf_uniform 3 3 3).
  - lia.
  - reflexivity.
  - reflexivity.
Defined.

(** ** More on the adjustment *)

Lemma bh_frame_aligned (ps : list Q) (i : nat) (p : Q) :
  nth_error ps i = Some p ->
  exists x, nth_error (bh_frame ps) i = Some (i, x) /\ is_bh_adjusted ps p x.
Proof.
  intro Hp.
  assert (Hi : (i < List.length (bh_frame ps))%nat).
  { rewrite bh_frame_length. apply nth_error_Some. congruence. }
  destruct (nth_error (bh_frame ps) i) as [[k x] |] eqn:E;
    [| apply nth_error_Some in Hi; contradiction].
  assert (Hk : nth_error (map fst (bh_frame ps)) i = Some k)
    by (rewrite nth_error_map, E; reflexivity).
  rewrite bh_frame_index in Hk. rewrite bh_frame_length in Hi.
  rewrite nth_error_nth' with (d := 0%nat) in Hk by (rewrite length_seq; lia).
  rewrite seq_nth in Hk by lia. inversion Hk; subst k. simpl in E.
  exists x. split; [reflexivity |].
  destruct (bh_frame_entry ps i x (nth_error_In _ _ E)) as (p' & Hp' & Hadj).
  congruence.
Qed.

Lemma bh_values_aligned (ps : list Q) (i : nat) (p x : Q) :
  nth_error ps i = Some p ->
  nth_error (values (bh_frame ps)) i = Some x ->
  is_bh_adjusted ps p x.
Proof.
  intros Hp Hx. destruct (bh_frame_aligned ps i p Hp) as (x' & E & Hadj).
  unfold values in Hx. rewrite nth_error_map, E in Hx. simpl in Hx.
  inversion Hx; subst. exact Hadj.
Qed.

Lemma BH_adjusted_pval_numbers (repr : string) (ps : list Q) :
  BH_adjusted_pval (py_list repr ps) = Returned (bh_frame ps).
Proof.
  unfold BH_adjusted_pval, py_list. rewrite astype_float_numbers. reflexivity.
Qed.

Lemma count_within (ps : list Q) (q : Q) :
  (List.length (filter (fun y => Qltb y q) ps)
   + List.length (filter (fun y => Qeq_bool y q) ps)
   <= List.length ps)%nat.
Proof.
  induction ps as [| y t IH]; simpl; [lia |].
  destruct (Qltb y q) eqn:E1, (Qeq_bool y q) eqn:E2; simpl; try lia.
  bool_to_order. exfalso. lra.
Qed.

(** An average rank lies between 1 and the length of the batch. *)
Lemma rank_average_bounds (ps : list Q) (q : Q) :
  In q ps ->
  1 <= rank_average ps q /\
  rank_average ps q <= inject_Z (Z.of_nat (List.length ps)).
Proof.
  intro Hin. unfold rank_average.
  pose proof (inject_nat_le _ _ (count_within ps q)) as H1.
  rewrite inject_nat_plus in H1.
  pose proof (inject_nat_le _ _ (count_member ps q Hin)) as H2.
  pose proof (inject_nat_le 0 (List.length (filter (fun y => Qltb y q) ps))
                (Nat.le_0_l _)) as H3.
  change (inject_Z (Z.of_nat 1)) with 1 in H2.
  change (inject_Z (Z.of_nat 0)) with 0 in H3.
  unfold Qdiv. change (/ 2) with (1 # 2). split; lra.
Qed.

Lemma bh_raw_not_below (ps : list Q) (q : Q) :
  In q ps -> 0 <= q -> q <= bh_raw ps q.
Proof.
  intros Hin H0. destruct (rank_average_bounds ps q Hin) as [R1 Rm].
  unfold bh_raw. apply Qle_shift_div_l; [lra |].
  rewrite (Qmult_comm q (rank_average ps q)),
          (Qmult_comm q (inject_Z (Z.of_nat (List.length ps)))).
  apply Qmult_le_compat_r; assumption.
Qed.

Lemma is_bh_adjusted_unique (ps : list Q) (p q x y : Q) :
  p == q -> is_bh_adjusted ps p x -> is_bh_adjusted ps q y -> x == y.
Proof.
  intros E Hx Hy.
  assert (x <= y) by (apply (is_bh_adjusted_mono ps p q); auto; lra).
  assert (y <= x) by (apply (is_bh_adjusted_mono ps q p); auto; lra).
  lra.
Qed.

Lemma count_permutation (f : Q -> bool) (l l' : list Q) :
  Permutation l l' -> List.length (filter f l) = List.length (filter f l').
Proof.
  induction 1 as [| x l l' _ IH | x y l | l l' l'' _ IH1 _ IH2]; simpl.
  - reflexivity.
  - destruct (f x); simpl; rewrite IH; reflexivity.
  - destruct (f x), (f y); reflexivity.
  - congruence.
Qed.

Lemma is_bh_adjusted_permutation (ps ps' : list Q) (p x : Q) :
  Permutation ps ps' -> is_bh_adjusted ps p x -> is_bh_adjusted ps' p x.
Proof.
  intros P (H1 & Hall & Hex).
  assert (Hraw : forall q, bh_raw ps q = bh_raw ps' q).
  { intro q. unfold bh_raw, rank_average.
    rewrite (Permutation_length P),
            (count_permutation (fun y => Qltb y q) ps ps' P),
            (count_permutation (fun y => Qeq_bool y q) ps ps' P).
    reflexivity. }
  split; [exact H1 |]. split.
  - intros q Hq Hpq. rewrite <- Hraw. apply Hall; [| exact Hpq].
    apply (Permutation_in _ (Permutation_sym P)), Hq.
  - destruct Hex as [Hx | (q & Hq & Hpq & Hx)]; [left; exact Hx |].
    right. exists q. rewrite <- Hraw. split; [| auto].
    apply (Permutation_in _ P), Hq.
Qed.

(** X6: reordering the batch reorders the result with it: entries holding the
    same p-value in the two batches get the same adjusted value. *)
Theorem BH_adjusted_pval_permutation (repr repr' : string) (ps ps' : list Q) :
  Permutation ps ps' ->
  exists out out',
    BH_adjusted_pval (py_list repr ps) = Returned out /\
    BH_adjusted_pval (py_list repr' ps') = Returned out' /\
    forall i j p p' x y,
      nth_error ps i = Some p -> nth_error ps' j = Some p' -> p == p' ->
      nth_error (values out) i = Some x -> nth_error (values out') j = Some y ->
      x == y.
Proof.
  intro P. exists (bh_frame ps), (bh_frame ps').
  split; [apply BH_adjusted_pval_numbers |].
  split; [apply BH_adjusted_pval_numbers |].
  intros i j p p' x y Hp Hp' E Hx Hy.
  pose proof (bh_values_aligned ps i p x Hp Hx) as Ax.
  pose proof (bh_values_aligned ps' j p' y Hp' Hy) as Ay.
  apply (is_bh_adjusted_permutation ps ps' p x P) in Ax.
  apply (is_bh_adjusted_unique ps' p p' x y E Ax Ay).
Qed.

Lemma BH_adjusted_pval_permutation_witness :
  exists out out',
    BH_adjusted_pval (py_list "[0.02, 0.29]" [0.02; 0.29]) = Returned out /\
    BH_adjusted_pval (py_list "[0.29, 0.02]" [0.29; 0.02]) = Returned out' /\
    forall i j p p' x y,
      nth_error [0.02; 0.29] i = Some p -> nth_error [0.29; 0.02] j = Some p' ->
      p == p' ->
      nth_error (values out) i = Some x -> nth_error (values out') j = Some y ->
      x == y.
Proof.
  apply BH_adjusted_pval_permutation. apply perm_swap.
Defined.

(** ** Validation of a submission (app.py, [update_results_df]) *)

Lemma is_n_valid_true (n : input_value) :
  is_n_valid n = Ok true <-> exists z, n = VInt z /\ (0 < z)%Z.
Proof.
  destruct n as [z | x | |]; simpl; split; try discriminate;
    try (intros (z' & H & _); discriminate).
  - intro H. inversion H as [E]. apply Z.ltb_lt in E. eauto.
  - intros (z' & H & Hz). inversion H; subst. apply Z.ltb_lt in Hz.
    rewrite Hz. reflexivity.
Qed.

Lemma is_n_valid_total (n : input_value) : exists b, is_n_valid n = Ok b.
Proof. destruct n; simpl; eauto. Qed.

Ltac unfold_checks :=
  unfold is_o_valid, is_e_valid;
  cbn [is_int_or_float py_compare and_then num is_number].

Lemma is_o_valid_true (o : input_value) (z : Z) :
  is_o_valid o (VInt z) = Ok true <->
  is_number o /\ num o <= inject_Z z /\ 0 <= num o.
Proof.
  change (inject_Z 0) with 0.
  destruct o as [y | x | |]; unfold_checks; change (inject_Z 0) with 0;
    split; try discriminate; try tauto.
  - destruct (Qle_bool (inject_Z y) (inject_Z z)) eqn:E1; [| discriminate].
    intro H. inversion H as [E2]. bool_to_order. auto.
  - intros (_ & H1 & H2). apply Qle_bool_iff in H1, H2. rewrite H1, H2. reflexivity.
  - destruct (Qle_bool x (inject_Z z)) eqn:E1; [| discriminate].
    intro H. inversion H as [E2]. bool_to_order. auto.
  - intros (_ & H1 & H2). apply Qle_bool_iff in H1, H2. rewrite H1, H2. reflexivity.
Qed.

Lemma is_e_valid_true (e : input_value) (z : Z) :
  is_e_valid e (VInt z) = Ok true <->
  is_number e /\ num e <= inject_Z z /\ 0 < num e.
Proof.
  destruct e as [y | x | |]; unfold_checks; change (inject_Z 0) with 0;
    split; try discriminate; try tauto.
  - destruct (Qle_bool (inject_Z y) (inject_Z z)) eqn:E1; [| discriminate].
    intro H. inversion H as [E2]. bool_to_order. auto.
  - intros (_ & H1 & H2). apply Qle_bool_iff in H1. apply Qltb_lt in H2.
    rewrite H1, H2. reflexivity.
  - destruct (Qle_bool x (inject_Z z)) eqn:E1; [| discriminate].
    intro H. inversion H as [E2]. bool_to_order. auto.
  - intros (_ & H1 & H2). apply Qle_bool_iff in H1. apply Qltb_lt in H2.
    rewrite H1, H2. reflexivity.
Qed.

(** With n other than None no comparison raises. *)
Lemma is_o_valid_total (o n : input_value) :
  n <> VNone -> exists b, is_o_valid o n = Ok b.
Proof.
  intro Hn.
  destruct o, n; unfold_checks; try contradiction; eauto;
    match goal with |- context [Qle_bool ?a ?b] => destruct (Qle_bool a b) end; eauto.
Qed.

Lemma is_e_valid_total (e n : input_value) :
  n <> VNone -> exists b, is_e_valid e n = Ok b.
Proof.
  intro Hn.
  destruct e, n; unfold_checks; try contradiction; eauto;
    match goal with |- context [Qle_bool ?a ?b] => destruct (Qle_bool a b) end; eauto.
Qed.

Lemma p_value_returned (ppf : rv_frozen -> Q -> Q) (n : Z) (o e : Q) :
  exists p,
    calculate_p_value ppf n o e = Returned p /\ grid_p_value p.
Proof.
  destruct (sweep_spec ppf n o e) as (pre & cl & post & E & _ & _ & Hr).
  exists (1 - cl). split; [exact Hr |].
  assert (Hin : In cl conf_levels) by (rewrite E; apply in_elt).
  destruct (conf_levels_bounds cl Hin) as [Hlo Hhi]. unfold last_level in Hhi.
  split; [exists cl; auto |].
  assert (Hlt : cl < 1) by (apply Qle_lt_trans with (1 := Hhi); reflexivity).
  split; lra.
Qed.

Lemma update_valid (ppf : rv_frozen -> Q -> Q) (str_tuple : Q * Q -> string)
    (z : Z) (o e : input_value) (cl : Q) (df : table) :
  is_number o -> is_number e -> valid_input z (num o) (num e) ->
  exists p,
    calculate_p_value ppf z (num o) (num e) = Returned p /\
    grid_p_value p /\
    update_results_df ppf str_tuple (VInt z) o e cl df =
    Done (sort_index
            (shift_index
               (loc_set (-1) (stored_row ppf str_tuple z (num o) (num e) cl p) df)))
         None.
Proof.
  intros Ho He (Hz & (Ho0 & Hon) & (He0 & Hen)).
  destruct (p_value_returned ppf z (num o) (num e)) as (p & Hp & Hrange).
  exists p. split; [exact Hp |]. split; [exact Hrange |].
  unfold update_results_df.
  assert (En : is_n_valid (VInt z) = Ok true)
    by (apply is_n_valid_true; eauto).
  assert (Eo : is_o_valid o (VInt z) = Ok true)
    by (apply is_o_valid_true; auto).
  assert (Ee : is_e_valid e (VInt z) = Ok true)
    by (apply is_e_valid_true; auto).
  rewrite En, Eo, Ee. cbn [andb]. rewrite Hp. reflexivity.
Qed.

Lemma update_done_inv (ppf : rv_frozen -> Q -> Q) (str_tuple : Q * Q -> string)
    (n o e : input_value) (cl : Q) (df df' : table) (m : option string) :
  update_results_df ppf str_tuple n o e cl df = Done df' m ->
  (m = None /\
   exists z p,
     n = VInt z /\ is_number o /\ is_number e /\ valid_input z (num o) (num e) /\
     calculate_p_value ppf z (num o) (num e) = Returned p /\
     df' = sort_index
             (shift_index
                (loc_set (-1) (stored_row ppf str_tuple z (num o) (num e) cl p) df)))
  \/ (df' = df /\
      ((m = Some msg_n /\ is_n_valid n = Ok false)
       \/ (m = Some msg_o /\ is_n_valid n = Ok true /\ is_o_valid o n = Ok false)
       \/ (m = Some msg_e /\ is_n_valid n = Ok true /\ is_o_valid o n = Ok true
           /\ is_e_valid e n = Ok false))).
Proof.
  unfold update_results_df.
  destruct (is_n_valid n) as [bn |] eqn:En; [| discriminate].
  destruct (is_o_valid o n) as [bo |] eqn:Eo; [| discriminate].
  destruct (is_e_valid e n) as [be |] eqn:Ee; [| discriminate].
  destruct bn; cbn [andb negb].
  - destruct bo; cbn [andb negb].
    + destruct be; cbn [andb negb].
      * apply is_n_valid_true in En. destruct En as (z & -> & Hz).
        apply is_o_valid_true in Eo. destruct Eo as (Ho & Hon & Ho0).
        apply is_e_valid_true in Ee. destruct Ee as (He & Hen & He0).
        destruct (calculate_p_value ppf z (num o) (num e)) as [p | ex] eqn:Hp;
          [| discriminate].
        intro H. inversion H; subst. left. split; [reflexivity |].
        exists z, p. unfold valid_input. repeat split; auto.
      * intro H. inversion H; subst. right. split; [reflexivity |]. auto 10.
    + intro H. inversion H; subst. right. split; [reflexivity |]. auto 10.
  - intro H. inversion H; subst. right. split; [reflexivity |]. auto 10.
Qed.

(** X8: a row is added exactly when n is a positive int and o, e are numbers
    with 0 <= o <= n and 0 < e <= n: the statistics are only ever called
    on a valid input. *)
Theorem update_results_df_accepts
    (ppf : rv_frozen -> Q -> Q) (str_tuple : Q * Q -> string)
    (n o e : input_value) (cl : Q) (df : table) :
  (exists df', update_results_df ppf str_tuple n o e cl df = Done df' None) <->
  (exists z, n = VInt z /\ is_number o /\ is_number e /\
             valid_input z (num o) (num e)).
Proof.
  split.
  - intros (df' & H). apply update_done_inv in H.
    destruct H as [(_ & z & p & Hn & Ho & He & Hv & _) | (_ & [H | [H | H]])].
    + eauto.
    + destruct H as [H _]. discriminate.
    + destruct H as [H _]. discriminate.
    + destruct H as [H _]. discriminate.
  - intros (z & -> & Ho & He & Hv).
    destruct (update_valid ppf str_tuple z o e cl df Ho He Hv) as (p & _ & _ & H).
    eauto.
Qed.

(** X9: a rejected submission leaves the table as it was and shows the
    message of the first failing check, n before o before e. *)
Theorem update_results_df_rejects
    (ppf : rv_frozen -> Q -> Q) (str_tuple : Q * Q -> string)
    (n o e : input_value) (cl : Q) (df df' : table) (msg : string) :
  update_results_df ppf str_tuple n o e cl df = Done df' (Some msg) ->
  df' = df /\
  ((msg = msg_n /\ is_n_valid n = Ok false)
   \/ (msg = msg_o /\ is_n_valid n = Ok true /\ is_o_valid o n = Ok false)
   \/ (msg = msg_e /\ is_n_valid n = Ok true /\ is_o_valid o n = Ok true
       /\ is_e_valid e n = Ok false)).
Proof.
  intro H. apply update_done_inv in H.
  destruct H as [(Habs & _) | (Hdf & H)]; [discriminate |].
  split; [exact Hdf |].
  destruct H as [(E & H) | [(E & H) | (E & H)]]; inversion E; subst; auto.
Qed.

Lemma update_results_df_rejects_witness :
  [] = EMPTY_RESULTS_DF /\
  ((msg_o = msg_n /\ is_n_valid (VInt 10) = Ok false)
   \/ (msg_o = msg_o /\ is_n_valid (VInt 10) = Ok true /\ is_o_valid VNaN (VInt 10) = Ok false)
   \/ (msg_o = msg_e /\ is_n_valid (VInt 10) = Ok true /\ is_o_valid VNaN (VInt 10) = Ok true
       /\ is_e_valid VNaN (VInt 10) = Ok false)).
Proof.
  apply (update_results_df_rejects ppf_uniform (fun _ => EmptyString)
           (VInt 10) VNaN VNaN 0.95 EMPTY_RESULTS_DF [] msg_o).
  reflexivity.
Defined.

(** X10: the handler ends in a TypeError exactly when n is None while o or e
    is not: the comparison with n is then evaluated.  The statistics never
    raise inside it. *)
Theorem update_results_df_type_error
    (ppf : rv_frozen -> Q -> Q) (str_tuple : Q * Q -> string)
    (n o e : input_value) (cl : Q) (df : table) :
  (update_results_df ppf str_tuple n o e cl df = EventTypeError <->
   n = VNone /\ (o <> VNone \/ e <> VNone)) /\
  (forall ex, update_results_df ppf str_tuple n o e cl df <> EventRaised ex).
Proof.
  split.
  - split.
    + intro H. destruct n as [z | x | |].
      * exfalso. unfold update_results_df in H.
        destruct (is_n_valid_total (VInt z)) as [bn En].
        destruct (is_o_valid_total o (VInt z)) as [bo Eo]; [discriminate |].
        destruct (is_e_valid_total e (VInt z)) as [be Ee]; [discriminate |].
        rewrite En, Eo, Ee in H.
        destruct (bn && bo && be); [| discriminate].
        destruct (calculate_p_value _ _ _ _); discriminate.
      * exfalso. unfold update_results_df in H.
        destruct (is_o_valid_total o (VFloat x)) as [bo Eo]; [discriminate |].
        destruct (is_e_valid_total e (VFloat x)) as [be Ee]; [discriminate |].
        rewrite Eo, Ee in H. simpl in H. discriminate.
      * exfalso. unfold update_results_df in H.
        destruct (is_o_valid_total o VNaN) as [bo Eo]; [discriminate |].
        destruct (is_e_valid_total e VNaN) as [be Ee]; [discriminate |].
        rewrite Eo, Ee in H. simpl in H. discriminate.
      * split; [reflexivity |].
        destruct o; try (left; discriminate).
        destruct e; try (right; discriminate).
    + intros (-> & [Ho | He]).
      * destruct o; try contradiction; reflexivity.
      * destruct o, e; try contradiction; reflexivity.
  - intros ex H. unfold update_results_df in H.
    destruct (is_n_valid n) as [bn |]; [| discriminate].
    destruct (is_o_valid o n) as [bo |]; [| discriminate].
    destruct (is_e_valid e n) as [be |]; [| discriminate].
    destruct (bn && bo && be); [| discriminate].
    destruct (p_value_returned ppf (match n with VInt z => z | _ => 0%Z end)
                (num o) (num e)) as (p & Hp & _).
    rewrite Hp in H. discriminate.
Qed.

(** ** The table: insertion at the front, undo, display *)

Lemma insert_by_head {A : Type} (leb : A -> A -> bool) (x : A) (l : list A) :
  Forall (fun y => leb x y = true) l -> insert_by leb x l = x :: l.
Proof.
  intro H. destruct l as [| y t]; simpl; [reflexivity |].
  inversion H as [| ? ? Hy _]; subst. rewrite Hy. reflexivity.
Qed.

(** Sorting a sorted list followed by a new least element brings that
    element to the front and keeps the rest in order. *)
Lemma sort_by_snoc_least {A : Type} (leb : A -> A -> bool) (l : list A) (x : A) :
  StronglySorted (fun a b => leb a b = true) l ->
  Forall (fun y => leb y x = false) l ->
  Forall (fun y => leb x y = true) l ->
  sort_by leb (l ++ [x]) = x :: l.
Proof.
  induction l as [| a t IH]; intros Hs Hgt Hle; simpl; [reflexivity |].
  apply StronglySorted_inv in Hs. destruct Hs as [Hs Ha].
  inversion Hgt as [| ? ? Hax Hgt']; subst.
  inversion Hle as [| ? ? _ Hle']; subst.
  rewrite (IH Hs Hgt' Hle'). simpl. rewrite Hax.
  rewrite (insert_by_head leb a t Ha). reflexivity.
Qed.

Lemma combine_fst_snd {A B : Type} (l : list (A * B)) :
  combine (map fst l) (map snd l) = l.
Proof.
  induction l as [| [x y] t IH]; simpl; [reflexivity |]. rewrite IH. reflexivity.
Qed.

Lemma labels_succ (k : nat) :
  map (fun z => (z + 1)%Z) (map Z.of_nat (seq 0 k)) = map Z.of_nat (seq 1 k).
Proof.
  rewrite <- seq_shift, !map_map. apply map_ext.
  intro i. lia.
Qed.

Lemma well_indexed_labels (df : table) (lr : Z * result_row) :
  well_indexed df -> In lr df -> (0 <= fst lr)%Z.
Proof.
  intros H Hin. apply (in_map fst) in Hin. rewrite H in Hin.
  apply in_map_iff in Hin. destruct Hin as (i & <- & _). lia.
Qed.

Lemma loc_set_fresh (df : table) (r : result_row) :
  well_indexed df -> loc_set (-1) r df = df ++ [((-1)%Z, r)].
Proof.
  intro H. unfold loc_set.
  assert (E : existsb (fun lr => (fst lr =? -1)%Z) df = false).
  { destruct (existsb _ df) eqn:E; [| reflexivity].
    apply existsb_exists in E. destruct E as (lr & Hin & Heq).
    apply Z.eqb_eq in Heq. pose proof (well_indexed_labels df lr H Hin). lia. }
  rewrite E. reflexivity.
Qed.

Lemma shift_index_sorted (df : table) :
  well_indexed df ->
  StronglySorted (fun a b => label_asc a b = true) (shift_index df).
Proof.
  unfold well_indexed. generalize 0%nat as s.
  induction df as [| [l r] t IH]; intros s H; simpl in *; [constructor |].
  inversion H as [[Hl Ht]]. constructor.
  - apply (IH (S s)). exact Ht.
  - apply Forall_forall. intros [l' r'] Hin. unfold shift_index in Hin.
    apply in_map_iff in Hin. destruct Hin as ([l0 r0] & E & Hin).
    inversion E; subst. apply (in_map fst) in Hin. rewrite Ht in Hin.
    apply in_map_iff in Hin. destruct Hin as (i & Hi & Hseq).
    apply in_seq in Hseq. unfold label_asc. simpl in *. apply Z.leb_le. lia.
Qed.

(** The table after a valid submission, for a table labelled 0 .. k-1. *)
Lemma insert_at_front (df : table) (r : result_row) :
  well_indexed df ->
  sort_index (shift_index (loc_set (-1) r df)) = (0%Z, r) :: shift_index df.
Proof.
  intro H. rewrite (loc_set_fresh df r H).
  unfold shift_index at 1. rewrite map_app. simpl map. fold (shift_index df).
  unfold sort_index. apply sort_by_snoc_least.
  - apply shift_index_sorted, H.
  - apply Forall_forall. intros [l' r'] Hin. unfold shift_index in Hin.
    apply in_map_iff in Hin. destruct Hin as (lr & E & Hin). inversion E; subst.
    pose proof (well_indexed_labels df lr H Hin).
    unfold label_asc. simpl. apply Z.leb_gt. lia.
  - apply Forall_forall. intros [l' r'] Hin. unfold shift_index in Hin.
    apply in_map_iff in Hin. destruct Hin as (lr & E & Hin). inversion E; subst.
    pose proof (well_indexed_labels df lr H Hin).
    unfold label_asc. simpl. apply Z.leb_le. lia.
Qed.

Lemma shift_index_rows (df : table) : map snd (shift_index df) = map snd df.
Proof. unfold shift_index. rewrite map_map. reflexivity. Qed.

Lemma well_indexed_cons (df : table) (r : result_row) :
  well_indexed df -> well_indexed ((0%Z, r) :: shift_index df).
Proof.
  unfold well_indexed. intro H. simpl. f_equal.
  unfold shift_index. rewrite length_map, map_map. simpl.
  rewrite <- labels_succ, <- H, map_map. reflexivity.
Qed.

Lemma reset_index_well_indexed (df : table) :
  well_indexed (reset_index df) /\ map snd (reset_index df) = map snd df.
Proof.
  unfold well_indexed, reset_index.
  assert (L : List.length (map Z.of_nat (seq 0 (List.length df)))
              = List.length (map snd df))
    by (rewrite !length_map, length_seq; reflexivity).
  split.
  - rewrite length_combine, L, Nat.min_id, length_map.
    apply combine_fst. exact L.
  - revert L. generalize (map Z.of_nat (seq 0 (List.length df))) as ls.
    generalize (map snd df) as rs.
    induction rs as [| x t IH]; intros [| y ls] L; simpl in *;
      try reflexivity; try discriminate.
    f_equal. apply IH. lia.
Qed.

Lemma reset_index_shift (df : table) :
  well_indexed df -> reset_index (shift_index df) = df.
Proof.
  intro H. unfold reset_index.
  rewrite shift_index_rows. unfold shift_index at 1. rewrite length_map.
  rewrite <- H. apply combine_fst_snd.
Qed.

(** X11: on a table labelled 0 .. k-1, a valid submission puts its row first,
    keeps the earlier rows in their order, and leaves the table labelled
    0 .. k. *)
Theorem update_results_df_inserts_at_front
    (ppf : rv_frozen -> Q -> Q) (str_tuple : Q * Q -> string)
    (z : Z) (o e : input_value) (cl : Q) (df : table) :
  well_indexed df -> is_number o -> is_number e ->
  valid_input z (num o) (num e) ->
  exists df' p,
    update_results_df ppf str_tuple (VInt z) o e cl df = Done df' None /\
    calculate_p_value ppf z (num o) (num e) = Returned p /\
    map snd df' = stored_row ppf str_tuple z (num o) (num e) cl p :: map snd df /\
    well_indexed df'.
Proof.
  intros Hw Ho He Hv.
  destruct (update_valid ppf str_tuple z o e cl df Ho He Hv) as (p & Hp & _ & H).
  rewrite (insert_at_front df _ Hw) in H.
  eexists. exists p. split; [exact H |]. split; [exact Hp |]. split.
  - simpl. rewrite shift_index_rows. reflexivity.
  - apply well_indexed_cons, Hw.
Qed.

Lemma update_results_df_inserts_at_front_witness :
  exists df' p,
    update_results_df ppf_uniform (fun _ => EmptyString)
      (VInt 1) (VFloat 0.5) (VFloat 0.1171875) 0.95 EMPTY_RESULTS_DF = Done df' None /\
    calculate_p_value ppf_uniform 1 (num (VFloat 0.5)) (num (VFloat 0.1171875)) = Returned p /\
    map snd df' =
      stored_row ppf_uniform (fun _ => EmptyString) 1
        (num (VFloat 0.5)) (num (VFloat 0.1171875)) 0.95 p :: map snd EMPTY_RESULTS_DF /\
    well_indexed df'.
Proof.
  apply update_results_df_inserts_at_front.
  - reflexivity.
  - exact I.
  - exact I.
  - valid_by_computation.
Defined.

(** X12: undo takes back a submission: on a table labelled 0 .. k-1, removing
    the entry right after a row was added gives the table back. *)
Theorem undo_after_update
    (ppf : rv_frozen -> Q -> Q) (str_tuple : Q * Q -> string)
    (n o e : input_value) (cl : Q) (df df' : table) :
  well_indexed df ->
  update_results_df ppf str_tuple n o e cl df = Done df' None ->
  remove_entry_from_results_df df' = df.
Proof.
  intros Hw H. apply update_done_inv in H.
  destruct H as [(_ & z & p & _ & _ & _ & _ & _ & ->) | (_ & [H | [H | H]])];
    try (destruct H as [H _]; discriminate).
  rewrite (insert_at_front df _ Hw).
  unfold remove_entry_from_results_df. simpl.
  apply reset_index_shift, Hw.
Qed.

Lemma undo_after_update_witness :
  remove_entry_from_results_df one_row_table = EMPTY_RESULTS_DF.
Proof.
  apply (undo_after_update ppf_uniform (fun _ => EmptyString)
           (VInt 1) (VFloat 0.5) (VFloat 0.1171875) 0.95).
  - reflexivity.
  - vm_compute. reflexivity.
Defined.

Lemma remove_entry_drops_first_rows (df : table) :
  map snd (remove_entry_from_results_df df) = tl (map snd df) /\
  well_indexed (remove_entry_from_results_df df).
Proof.
  unfold remove_entry_from_results_df.
  destruct df as [| lr t]; simpl; [split; reflexivity |].
  destruct (reset_index_well_indexed t) as [Hw Hr]. auto.
Qed.

(** X13: undo drops the first row, the latest one, keeps the others in order
    and relabels them 0 .. k-2; on the empty table it changes nothing. *)
Theorem remove_entry_drops_first (df : table) :
  map snd (remove_entry_from_results_df df) = tl (map snd df) /\
  well_indexed (remove_entry_from_results_df df) /\
  (df = [] -> remove_entry_from_results_df df = []).
Proof.
  unfold remove_entry_from_results_df.
  destruct df as [| lr t]; simpl.
  - repeat split; reflexivity.
  - destruct (reset_index_well_indexed t) as [Hw Hr].
    repeat split; auto. discriminate.
Qed.

Lemma reachable_invariant
    (ppf : rv_frozen -> Q -> Q) (str_tuple : Q * Q -> string) (df : table) :
  reachable ppf str_tuple df ->
  well_indexed df /\
  Forall (fun r => valid_input (row_n r) (row_o r) (row_e r) /\
                   grid_p_value (row_p_val r))
         (map snd df).
Proof.
  induction 1 as [| df df' n o e cl m _ [Hw Hrows] Hup | df _ [Hw Hrows] | df _ _].
  - split; [reflexivity | constructor].
  - apply update_done_inv in Hup.
    destruct Hup as [(_ & z & p & _ & _ & _ & Hv & Hp & ->) | (-> & _)];
      [| split; assumption].
    rewrite (insert_at_front df _ Hw). split; [apply well_indexed_cons, Hw |].
    simpl. rewrite shift_index_rows. constructor; [| exact Hrows].
    simpl. split; [exact Hv |].
    destruct (p_value_returned ppf z (num o) (num e)) as (p' & Hp' & Hrange).
    rewrite Hp in Hp'. inversion Hp'; subst. exact Hrange.
  - destruct (remove_entry_drops_first_rows df) as [Hr Hw'].
    split; [exact Hw' |]. rewrite Hr.
    destruct (map snd df) as [| r t]; simpl; [constructor |].
    inversion Hrows; assumption.
  - split; [reflexivity | constructor].
Qed.

(** X14: every table the handlers can build from the empty one is labelled
    0 .. k-1 in order, and each of its rows holds a valid input and, as
    its p-value, the complement 1 - cl of a swept level, which is
    positive and at most 0.99. *)
Theorem reachable_tables
    (ppf : rv_frozen -> Q -> Q) (str_tuple : Q * Q -> string) (df : table) :
  reachable ppf str_tuple df ->
  well_indexed df /\
  Forall (fun r => valid_input (row_n r) (row_o r) (row_e r) /\
                   grid_p_value (row_p_val r))
         (map snd df).
Proof. apply reachable_invariant. Qed.

Lemma reachable_one_row :
  reachable ppf_uniform (fun _ => EmptyString) one_row_table.
Proof.
  apply (reach_update ppf_uniform (fun _ => EmptyString) EMPTY_RESULTS_DF _
           (VInt 1) (VFloat 0.5) (VFloat 0.1171875) 0.95 None).
  - apply reach_init.
  - vm_compute. reflexivity.
Defined.

Lemma reachable_tables_witness :
  well_indexed one_row_table /\
  Forall (fun r => valid_input (row_n r) (row_o r) (row_e r) /\
                   grid_p_value (row_p_val r))
         (map snd one_row_table).
Proof.
  apply (reachable_tables ppf_uniform (fun _ => EmptyString)).
  exact reachable_one_row.
Defined.

Lemma stars_antitone (p q : Q) :
  p <= q -> (count_stars (p_val_to_str q) <= count_stars (p_val_to_str p))%nat.
Proof.
  intro H. rewrite !stars_by_band.
  destruct (Qltb p 0.001) eqn:P1, (Qltb p 0.01) eqn:P2, (Qltb p 0.05) eqn:P3,
           (Qltb q 0.001) eqn:Q1, (Qltb q 0.01) eqn:Q2, (Qltb q 0.05) eqn:Q3;
    try lia; bool_to_order; exfalso; lra.
Qed.

Lemma at_label_seq (s : list (nat * Q)) (a i : nat) (x : Q) :
  map fst s = seq a (List.length s) ->
  nth_error s i = Some ((a + i)%nat, x) ->
  at_label (Z.of_nat (a + i)) s = Some x.
Proof.
  revert a i. induction s as [| [k y] t IH]; intros a i Hs Hn.
  - destruct i; discriminate Hn.
  - simpl in Hs. inversion Hs as [[Hk Ht]]. subst k.
    destruct i as [| i]; simpl in *.
    + rewrite Nat.add_0_r in *. inversion Hn; subst. rewrite Z.eqb_refl. reflexivity.
    + assert (E : (Z.of_nat a =? Z.of_nat (a + S i))%Z = false)
        by (apply Z.eqb_neq; lia).
      rewrite E. replace (a + S i)%nat with (S a + i)%nat in * by lia.
      apply IH; assumption.
Qed.

(** X15: for every table the handlers can build, the display is computed
    without error, has one line per row in the table's order, and no
    line's adjusted label carries more markers than its p-value label. *)
Theorem show_results_df_reachable
    (ppf : rv_frozen -> Q -> Q) (str_tuple : Q * Q -> string) (df : table) :
  reachable ppf str_tuple df ->
  exists rows,
    show_results_df df = Returned rows /\
    map shown rows = map snd df /\
    Forall (fun d => (count_stars (mult_adj_label d)
                      <= count_stars (p_val_label d))%nat) rows.
Proof.
  intro Hreach. destruct (reachable_invariant ppf str_tuple df Hreach) as [Hw Hrows].
  unfold show_results_df. rewrite BH_adjusted_pval_numbers. simpl bind.
  set (ps := map (fun lr => row_p_val (snd lr)) df).
  eexists. split; [reflexivity |]. split.
  - rewrite map_map. reflexivity.
  - apply Forall_forall. intros d Hd. apply in_map_iff in Hd.
    destruct Hd as (lr & <- & Hin). simpl.
    apply In_nth_error in Hin. destruct Hin as [i Hi].
    assert (Hlt : (i < List.length df)%nat) by (apply nth_error_Some; congruence).
    assert (Hl : fst lr = Z.of_nat i).
    { assert (E : nth_error (map fst df) i = Some (fst lr))
        by (rewrite nth_error_map, Hi; reflexivity).
      rewrite Hw, nth_error_map in E.
      rewrite nth_error_nth' with (d := 0%nat) in E by (rewrite length_seq; lia).
      rewrite seq_nth in E by lia. simpl in E. inversion E. reflexivity. }
    assert (Hp : nth_error ps i = Some (row_p_val (snd lr)))
      by (unfold ps; rewrite nth_error_map, Hi; reflexivity).
    destruct (bh_frame_aligned ps i _ Hp) as (x & Ex & Hadj).
    assert (Hat : at_label (fst lr) (bh_frame ps) = Some x).
    { rewrite Hl. apply (at_label_seq (bh_frame ps) 0 i x).
      - rewrite bh_frame_index, bh_frame_length. reflexivity.
      - exact Ex. }
    rewrite Hat. apply stars_antitone.
    assert (Hrange : forall q, In q ps -> 0 <= q /\ q <= 1).
    { intros q Hq. unfold ps in Hq. apply in_map_iff in Hq.
      destruct Hq as (lr' & <- & Hin').
      rewrite Forall_forall in Hrows.
      destruct (Hrows (snd lr') (in_map snd _ _ Hin')) as (_ & H1 & H2).
      split; lra. }
    destruct Hadj as (_ & _ & [H1 | (q & Hq & Hpq & Hxq)]).
    + destruct (Hrange _ (nth_error_In _ _ Hp)). lra.
    + destruct (Hrange q Hq) as [Hq0 _].
      pose proof (bh_raw_not_below ps q Hq Hq0). lra.
Qed.

Lemma show_results_df_reachable_witness :
  exists rows,
    show_results_df one_row_table = Returned rows /\
    map shown rows = map snd one_row_table /\
    Forall (fun d => (count_stars (mult_adj_label d)
                      <= count_stars (p_val_label d))%nat) rows.
Proof.
  apply (show_results_df_reachable ppf_uniform (fun _ => EmptyString)).
  exact reachable_one_row.
Defined.

(** ** The interval shown and the markers agree *)

(** Once the sweep has stopped at or below a level that is not the last,
    1 lies strictly inside the interval at that level. *)
Lemma contains_from_stop
    (ppf : rv_frozen -> Q -> Q) (n : Z) (o e cl pv : Q) :
  quantile_monotone ppf -> (0 < n)%Z -> 0 < e -> cl < last_level ->
  calculate_p_value ppf n o e = Returned pv ->
  1 - cl <= pv -> contains_one (ci_ote ppf n o e cl) = true.
Proof.
  intros Hm Hn He Hcl Hpv Hle.
  destruct (sweep_spec ppf n o e) as (pre & c' & post & E & _ & Hstop & Hr).
  rewrite Hr in Hpv. inversion Hpv; subst pv. clear Hpv.
  destruct Hstop as [Hstop | [Hp _]].
  - apply (contains_one_upward ppf n o e c' cl); auto. lra.
  - subst post. pose proof (conf_levels_last pre c' E). lra.
Qed.

(** And at a swept level the converse holds too. *)
Lemma stop_from_contains
    (ppf : rv_frozen -> Q -> Q) (n : Z) (o e cl pv : Q) :
  quantile_monotone ppf -> (0 < n)%Z -> 0 < e ->
  (exists c, In c conf_levels /\ c == cl) ->
  calculate_p_value ppf n o e = Returned pv ->
  contains_one (ci_ote ppf n o e cl) = true -> 1 - cl <= pv.
Proof.
  intros Hm Hn He (c & Hin & Hc) Hpv.
  destruct (sweep_spec ppf n o e) as (pre & c' & post & E & Hpre & _ & Hr).
  rewrite Hr in Hpv. inversion Hpv; subst pv. clear Hpv.
  pose proof conf_levels_nondecreasing as Hs. rewrite E in Hs.
  destruct (sorted_around Qle pre post c' Hs) as [_ Hafter].
  rewrite <- (contains_one_Qeq ppf n o e c cl Hm Hn He Hc).
  rewrite E in Hin. apply in_app_or in Hin.
  intro Hcont. destruct Hin as [Hin | [<- | Hin]].
  - rewrite Forall_forall in Hpre. rewrite (Hpre c Hin) in Hcont. discriminate.
  - lra.
  - specialize (Hafter c Hin). lra.
Qed.

(** Where the marker thresholds fall among the swept levels: a complement
    of at least 0.01 (0.001) is that of a level up to the float 0.99
    (0.999), and a complement of at least 0.05 that of a level below the
    float 0.95, which is not itself swept. *)
Lemma level_bands (c : Q) :
  In c conf_levels ->
  (0.05 <= 1 - c -> c <= Q_of_float 0.95) /\
  (0.01 <= 1 - c <-> c <= Q_of_float 0.99) /\
  (0.001 <= 1 - c <-> c <= Q_of_float 0.999).
Proof.
  intro Hin.
  assert (A : forallb (fun c =>
                implb (Qle_bool 0.05 (1 - c)) (Qle_bool c (Q_of_float 0.95))
                && Bool.eqb (Qle_bool 0.01 (1 - c)) (Qle_bool c (Q_of_float 0.99))
                && Bool.eqb (Qle_bool 0.001 (1 - c)) (Qle_bool c (Q_of_float 0.999)))
              conf_levels = true) by (vm_compute; reflexivity).
  rewrite forallb_forall in A. specialize (A c Hin).
  apply andb_true_iff in A. destruct A as [A A3].
  apply andb_true_iff in A. destruct A as [A1 A2].
  apply eqb_prop in A2. apply eqb_prop in A3.
  split; [| split].
  - intro H. apply Qle_bool_iff in H. rewrite H in A1.
    apply Qle_bool_iff. exact A1.
  - rewrite <- !Qle_bool_iff, A2. reflexivity.
  - rewrite <- !Qle_bool_iff, A3. reflexivity.
Qed.

(** X16: for a monotone quantile function and a valid input: the 99%
    interval strictly contains 1 exactly when the p-value's label has at
    most one marker, the 99.9% interval exactly when it has at most two,
    and a label with no marker comes with a 95% interval that strictly
    contains 1. *)
Theorem interval_and_markers_agree
    (ppf : rv_frozen -> Q -> Q) (n : Z) (o e : Q) :
  quantile_monotone ppf -> valid_input n o e ->
  exists pv,
    calculate_p_value ppf n o e = Returned pv /\
    (count_stars (p_val_to_str pv) = 0%nat ->
     contains_one (ci_ote ppf n o e (Q_of_float 0.95)) = true) /\
    (contains_one (ci_ote ppf n o e (Q_of_float 0.99)) = true <->
     (count_stars (p_val_to_str pv) <= 1)%nat) /\
    (contains_one (ci_ote ppf n o e (Q_of_float 0.999)) = true <->
     (count_stars (p_val_to_str pv) <= 2)%nat).
Proof.
  intros Hm (Hn & _ & He & _).
  destruct (p_value_returned ppf n o e) as (pv & Hpv & (c & Hin & ->) & _).
  exists (1 - c). split; [exact Hpv |].
  destruct (level_bands c Hin) as (B1 & B2 & B3).
  assert (L1 : Q_of_float 0.95 < last_level) by (vm_compute; reflexivity).
  assert (L2 : Q_of_float 0.99 < last_level) by (vm_compute; reflexivity).
  assert (L3 : Q_of_float 0.999 < last_level) by (vm_compute; reflexivity).
  assert (M2 : exists c0, In c0 conf_levels /\ c0 == Q_of_float 0.99)
    by (exists (nth 98 conf_levels 0); split;
        [apply nth_In; rewrite conf_levels_length; lia | vm_compute; reflexivity]).
  assert (M3 : exists c0, In c0 conf_levels /\ c0 == Q_of_float 0.999)
    by (exists (nth 107 conf_levels 0); split;
        [apply nth_In; rewrite conf_levels_length; lia | vm_compute; reflexivity]).
  pose proof (contains_from_stop ppf n o e _ _ Hm Hn He L1 Hpv) as K1.
  pose proof (contains_from_stop ppf n o e _ _ Hm Hn He L2 Hpv) as K2.
  pose proof (contains_from_stop ppf n o e _ _ Hm Hn He L3 Hpv) as K3.
  pose proof (stop_from_contains ppf n o e _ _ Hm Hn He M2 Hpv) as S2.
  pose proof (stop_from_contains ppf n o e _ _ Hm Hn He M3 Hpv) as S3.
  rewrite stars_by_band.
  destruct (Qltb (1 - c) 0.001) eqn:E1, (Qltb (1 - c) 0.01) eqn:E2,
           (Qltb (1 - c) 0.05) eqn:E3; bool_to_order.
  all: split; [| split].
  all: try (split; intro H).
  all: try (intro H).
  all: first [ lia
             | apply K1; apply B1 in E3; lra
             | apply K2; apply B2 in E2; lra
             | apply K3; apply B3 in E1; lra
             | exfalso; apply S2 in H; assert (0.01 <= 1 - c) by (apply B2; lra); lra
             | exfalso; apply S3 in H; assert (0.001 <= 1 - c) by (apply B3; lra); lra
             | exfalso; lra ].
Qed.

Lemma interval_and_markers_agree_witness :
  exists pv,
    calculate_p_value ppf_uniform 1 0.5 0.1171875 = Returned pv /\
    (count_stars (p_val_to_str pv) = 0%nat ->
     contains_one (ci_ote ppf_uniform 1 0.5 0.1171875 (Q_of_float 0.95)) = true) /\
    (contains_one (ci_ote ppf_uniform 1 0.5 0.1171875 (Q_of_float 0.99)) = true <->
     (count_stars (p_val_to_str pv) <= 1)%nat) /\
    (contains_one (ci_ote ppf_uniform 1 0.5 0.1171875 (Q_of_float 0.999)) = true <->
     (count_stars (p_val_to_str pv) <= 2)%nat).
Proof.
  apply interval_and_markers_agree.
  - exact ppf_uniform_monotone.
  - valid_by_computation.
Defined.

(** The first implication has no converse: the level swept for 0.95 is
    just above 0.95, so at n = 1, o = 0.5, e = 0.028 the 95% interval
    strictly contains 1 while the p-value is just below 0.05 and its label
    carries one marker. *)
Lemma interval_without_marker_no_converse :
  valid_input 1 0.5 0.028 /\
  contains_one (ci_ote ppf_uniform 1 0.5 0.028 (Q_of_float 0.95)) = true /\
  exists pv,
    calculate_p_value ppf_uniform 1 0.5 0.028 = Returned pv /\
    pv == 1 - nth 94 conf_levels 0 /\ pv < 0.05 /\
    count_stars (p_val_to_str pv) = 1%nat.
Proof.
  split; [valid_by_computation |].
  split; [vm_compute; reflexivity |].
  eexists. split; [vm_compute; reflexivity |].
  split; [vm_compute; reflexivity |].
  split; vm_compute; reflexivity.
Qed.
